(** * Amharic text processor: the normalization processors

    A shallow embedding of [amharic_text_processor/processors/normalize.py]
    (classes [PunctuationNormalizer], [UnicodeNormalizer], [CharacterRemapper])
    and the properties of its three stages.

    A Python [str] is a sequence of Unicode code points; it is modelled as a
    list of code points ([N]).  The regular-expression calls of the source are
    modelled by one leftmost, non-overlapping scanner ([Re.scan]) that is
    instantiated with a matcher per pattern. *)

From Stdlib Require Import Ascii String DecimalString DecimalNat.
From Stdlib Require Import NArith Arith Bool Lia Permutation List.
Import ListNotations.

Local Open Scope N_scope.

(** ** Python strings *)

Definition char := N.
Definition str := list char.

Definition str_eqb (a b : str) : bool :=
  if list_eq_dec N.eq_dec a b then true else false.

(** UTF-8 decoding, used only to write text literals of this file: [py "..."]
    is the Python string whose UTF-8 encoding is the given byte string. *)
Fixpoint utf8 (bs : list N) (need : nat) (acc : N) : str :=
  match bs with
  | [] => []
  | b :: t =>
      match need with
      | O =>
          if b <? 0x80 then b :: utf8 t 0 0
          else if b <? 0xE0 then utf8 t 1 (b - 0xC0)
          else if b <? 0xF0 then utf8 t 2 (b - 0xE0)
          else utf8 t 3 (b - 0xF0)
      | S O => (acc * 64 + (b - 0x80)) :: utf8 t 0 0
      | S n => utf8 t n (acc * 64 + (b - 0x80))
      end
  end.

Definition py (s : string) : str :=
  utf8 (map N_of_ascii (list_ascii_of_string s)) 0 0.

(** [str(n)] for a non-negative integer. *)
Definition str_of_nat (n : nat) : str :=
  map N_of_ascii (list_ascii_of_string (NilEmpty.string_of_uint (Nat.to_uint n))).

(** [takewhile] and the rest of the string. *)
Fixpoint span (p : char -> bool) (s : str) : str * str :=
  match s with
  | [] => ([], [])
  | c :: t => if p c then let (a, b) := span p t in (c :: a, b) else ([], s)
  end.

Fixpoint dropwhile (p : char -> bool) (s : str) : str :=
  match s with
  | [] => []
  | c :: t => if p c then dropwhile p t else s
  end.

Fixpoint starts_with (old s : str) : bool :=
  match old, s with
  | [], _ => true
  | o :: old', c :: s' => (o =? c) && starts_with old' s'
  | _ :: _, [] => false
  end.

(** [str.isspace] / the class [\s] of [re] on [str] patterns. *)
Definition isspace (c : char) : bool :=
  ((0x09 <=? c) && (c <=? 0x0D)) || ((0x1C <=? c) && (c <=? 0x20))
  || (c =? 0x85) || (c =? 0xA0) || (c =? 0x1680)
  || ((0x2000 <=? c) && (c <=? 0x200A))
  || (c =? 0x2028) || (c =? 0x2029) || (c =? 0x202F) || (c =? 0x205F)
  || (c =? 0x3000).

(** The class [\d] of [re] on [str] patterns: general category Nd.  The table
    lists the first code point of every block of decimal digits (Unicode 14,
    the database of CPython 3.11); each block has ten digits but the
    mathematical digits at U+1D7CE, which are five blocks in a row. *)
Definition Nd_blocks : list (N * N) :=
  map (fun lo => (lo, 10))
    [0x30; 0x660; 0x6F0; 0x7C0; 0x966; 0x9E6; 0xA66; 0xAE6; 0xB66; 0xBE6;
     0xC66; 0xCE6; 0xD66; 0xDE6; 0xE50; 0xED0; 0xF20; 0x1040; 0x1090;
     0x17E0; 0x1810; 0x1946; 0x19D0; 0x1A80; 0x1A90; 0x1B50; 0x1BB0;
     0x1C40; 0x1C50; 0xA620; 0xA8D0; 0xA900; 0xA9D0; 0xA9F0; 0xAA50;
     0xABF0; 0xFF10; 0x104A0; 0x10D30; 0x11066; 0x110F0; 0x11136; 0x111D0;
     0x112F0; 0x11450; 0x114D0; 0x11650; 0x116C0; 0x11730; 0x118E0;
     0x11950; 0x11C50; 0x11D50; 0x11DA0; 0x16A60; 0x16AC0; 0x16B50]
  ++ [(0x1D7CE, 50)]
  ++ map (fun lo => (lo, 10)) [0x1E140; 0x1E2F0; 0x1E950; 0x1FBF0].

Definition isdigit (c : char) : bool :=
  existsb (fun b => (fst b <=? c) && (c <? fst b + snd b)) Nd_blocks.

(** [str.translate] with a table that maps code points to code points. *)
Definition table := list (char * char).

Fixpoint lookup (t : table) (c : char) : option char :=
  match t with
  | [] => None
  | (k, v) :: t' => if k =? c then Some v else lookup t' c
  end.

Definition translate_char (t : table) (c : char) : char :=
  match lookup t c with Some v => v | None => c end.

Definition translate (t : table) (s : str) : str := map (translate_char t) s.

(** [str.strip()] without argument. *)
Definition strip (s : str) : str :=
  rev (dropwhile isspace (rev (dropwhile isspace s))).

(** ** Regular-expression substitution

    [re.sub] scans the text from left to right; at each position it tries the
    pattern, and on a (non-empty) match it records the match and goes on after
    it, otherwise it keeps the character and moves one position. *)
Module Re.

Inductive piece :=
| Lit (c : char)
| Hit (m : str).

(** A matcher tries the pattern at the start of the text and returns the
    matched text and what follows it. *)
Definition matcher := str -> option (str * str).

Fixpoint scan (mt : matcher) (fuel : nat) (s : str) : list piece :=
  match fuel with
  | O => []
  | S fuel' =>
      match s with
      | [] => []
      | c :: t =>
          match mt s with
          | Some (m, rest) => Hit m :: scan mt fuel' rest
          | None => Lit c :: scan mt fuel' t
          end
      end
  end.

Definition finditer (mt : matcher) (s : str) : list piece :=
  scan mt (length s) s.

Definition join (repl : str -> str) (ps : list piece) : str :=
  flat_map (fun p => match p with Lit c => [c] | Hit m => repl m end) ps.

Definition sub (mt : matcher) (repl : str -> str) (s : str) : str :=
  join repl (finditer mt s).

(** [\d+\.\d+]: both [\d+] are greedy; giving back digits of the first one
    never helps, since the character after it must be the dot. *)
Definition decimal : matcher := fun s =>
  let (ds, r1) := span isdigit s in
  match ds, r1 with
  | _ :: _, c :: r2 =>
      if c =? 0x2E then
        let (es, r3) := span isdigit r2 in
        match es with
        | [] => None
        | _ :: _ => Some (ds ++ c :: es, r3)
        end
      else None
  | _, _ => None
  end.

(** [(cls){2,}]: a greedy run of at least two characters of the class;
    group 1 holds the last repetition. *)
Definition repeated (cls : char -> bool) : matcher := fun s =>
  let (m, rest) := span cls s in
  if (2 <=? length m)%nat then Some (m, rest) else None.

Definition group1 (m : str) : str :=
  match rev m with
  | [] => []
  | c :: _ => [c]
  end.

(** [cls+] *)
Definition plus (cls : char -> bool) : matcher := fun s =>
  let (m, rest) := span cls s in
  match m with
  | [] => None
  | _ :: _ => Some (m, rest)
  end.

(** [(b[t1 t2 ...])]: the character [b] followed by one of [ts]. *)
Definition pair (b : char) (ts : list char) : matcher := fun s =>
  match s with
  | c :: d :: rest =>
      if (c =? b) && existsb (N.eqb d) ts then Some ([c; d], rest) else None
  | _ => None
  end.

(** A literal, non-empty text. *)
Definition literal (old : str) : matcher := fun s =>
  if starts_with old s then Some (old, skipn (length old) s) else None.

End Re.

(** [str.replace(old, new)]: every non-overlapping occurrence, from the left.
    With an empty [old], Python puts [new] around every character. *)
Definition replace (old new s : str) : str :=
  match old with
  | [] => new ++ flat_map (fun c => c :: new) s
  | _ :: _ => Re.sub (Re.literal old) (fun _ => new) s
  end.

(** ** Processor inputs and outputs *)

(** Modelled from the spec: [amharic_text_processor/base.py], which defines
    [ProcessorInput] and [BaseProcessor._extract_text], is not among the
    source files.  A processor input is a raw text or a record with a [text]
    field, and [_extract_text] takes the [text] field when there is one and
    the whole input otherwise. *)
Inductive ProcessorInput :=
| RawText (s : str)
| WithText (text : str).

Definition _extract_text (data : ProcessorInput) : str :=
  match data with
  | RawText s => s
  | WithText text => text
  end.

(** The output record: the text and the flag of the stage (the key
    [punctuation_normalized], [unicode_normalized] or [characters_remapped]
    of the returned dictionary). *)
Record ProcessorOutput := { text : str; flag : bool }.

(** ** PunctuationNormalizer *)
Module PunctuationNormalizer.

Definition PUNCT_TRANSLATION : table :=
  [ (0x201C, 0x22);   (* left double quotation mark -> quotation mark *)
    (0x201D, 0x22);   (* right double quotation mark -> quotation mark *)
    (0x2018, 0x27);   (* left single quotation mark -> apostrophe *)
    (0x2019, 0x27);   (* right single quotation mark -> apostrophe *)
    (0xFF0C, 0x2C);   (* fullwidth comma -> , *)
    (0x3002, 0x2E);   (* ideographic full stop -> . *)
    (0xFF01, 0x21);   (* fullwidth exclamation mark -> ! *)
    (0xFF1F, 0x3F);   (* fullwidth question mark -> ? *)
    (0x3001, 0x2C);   (* ideographic comma -> , *)
    (0xFF1B, 0x3B);   (* fullwidth semicolon -> ; *)
    (0xFF1A, 0x3A) ]. (* fullwidth colon -> : *)

(** [punct_all]: ? ! . , ; : and the Ethiopic marks U+1362 .. U+1368. *)
Definition punct_all_chars : str :=
  [0x3F; 0x21; 0x2E; 0x2C; 0x3B; 0x3A;
   0x1362; 0x1363; 0x1364; 0x1365; 0x1366; 0x1367; 0x1368].

Definition punct_all (c : char) : bool := existsb (N.eqb c) punct_all_chars.

(** The token of [_capture_decimal]. *)
Definition token (n : nat) : str :=
  py "__DECIMAL_" ++ str_of_nat n ++ py "__".

(** [re.sub(r"\d+\.\d+", _capture_decimal, text)]: the callback is called on
    the matches from left to right; it appends to [decimals] and returns the
    token.  The result is the protected text and the final [decimals]. *)
Fixpoint capture (ps : list Re.piece) (decimals : list (str * str))
  : str * list (str * str) :=
  match ps with
  | [] => ([], decimals)
  | Re.Lit c :: ps' =>
      let (out, ds) := capture ps' decimals in (c :: out, ds)
  | Re.Hit m :: ps' =>
      let tok := token (length decimals) in
      let (out, ds) := capture ps' (decimals ++ [(tok, m)]) in
      (tok ++ out, ds)
  end.

Definition protect (text : str) : str * list (str * str) :=
  capture (Re.finditer Re.decimal text) [].

(** [re.sub(rf"({punct_all}){{2,}}", r"\1", normalized)] *)
Definition collapse (s : str) : str :=
  Re.sub (Re.repeated punct_all) Re.group1 s.

(** [for token, value in decimals: normalized = normalized.replace(token, value)] *)
Definition restore (decimals : list (str * str)) (s : str) : str :=
  fold_left (fun acc tv => replace (fst tv) (snd tv) acc) decimals s.

(** [re.sub(r"\s+", " ", normalized).strip()] *)
Definition squeeze (s : str) : str :=
  strip (Re.sub (Re.plus isspace) (fun _ => [0x20]) s).

Definition normalize (text : str) : str :=
  let (protected, decimals) := protect text in
  let normalized := translate PUNCT_TRANSLATION protected in
  let normalized := collapse normalized in
  let normalized := restore decimals normalized in
  squeeze normalized.

Definition apply (data : ProcessorInput) : ProcessorOutput :=
  let text := _extract_text data in
  let normalized := normalize text in
  {| text := normalized; flag := negb (str_eqb normalized text) |}.

End PunctuationNormalizer.

(** ** UnicodeNormalizer *)

(** Errors raised by the code. *)
Inductive exn :=
| ValueError (msg : string).

Definition result (A : Type) : Type := exn + A.

Module UnicodeNormalizer.

(** The general categories of the Unicode character database, as
    [unicodedata.category] names them. *)
Inductive general_category :=
| Lu | Ll | Lt | Lm | Lo | Mn | Mc | Me | Nd | Nl | No
| Pc | Pd | Ps | Pe | Pi | Pf | Po | Sm | Sc | Sk | So
| Zs | Zl | Zp | Cc | Cf | Cs | Co | Cn.

Definition abbrev (g : general_category) : string :=
  match g with
  | Lu => "Lu" | Ll => "Ll" | Lt => "Lt" | Lm => "Lm" | Lo => "Lo"
  | Mn => "Mn" | Mc => "Mc" | Me => "Me" | Nd => "Nd" | Nl => "Nl"
  | No => "No" | Pc => "Pc" | Pd => "Pd" | Ps => "Ps" | Pe => "Pe"
  | Pi => "Pi" | Pf => "Pf" | Po => "Po" | Sm => "Sm" | Sc => "Sc"
  | Sk => "Sk" | So => "So" | Zs => "Zs" | Zl => "Zl" | Zp => "Zp"
  | Cc => "Cc" | Cf => "Cf" | Cs => "Cs" | Co => "Co" | Cn => "Cn"
  end%string.

(** The four normalization forms. *)
Inductive normal_form := NFC | NFD | NFKC | NFKD.

Definition form_of_name (name : string) : option normal_form :=
  if String.eqb name "NFC" then Some NFC
  else if String.eqb name "NFKC" then Some NFKC
  else if String.eqb name "NFD" then Some NFD
  else if String.eqb name "NFKD" then Some NFKD
  else None.

Record t := { form : string; strip_control : bool }.

(** [__init__] stores its two arguments (their defaults in the source are
    ["NFC"] and [True]); [inl] would be a constructor that raises. *)
Definition __init__ (form : string) (strip_control : bool) : result t :=
  inr {| form := form; strip_control := strip_control |}.

Section Unicodedata.

(** The Unicode character database of the Python runtime: the
    normalization algorithm of each form and the general category of
    each code point. *)
Variable nf : normal_form -> str -> str.
Variable category : char -> general_category.

(** [unicodedata.normalize(form, text)]: the empty text is returned as
    it is, before the form is looked at; an unknown form name raises
    [ValueError]. *)
Definition normalize (form : string) (s : str) : result str :=
  match s with
  | [] => inr []
  | _ :: _ =>
      match form_of_name form with
      | Some f => inr (nf f s)
      | None => inl (ValueError "invalid normalization form")
      end
  end.

(** [unicodedata.category(ch)[0] != "C"] *)
Definition not_control (ch : char) : bool :=
  match String.get 0 (abbrev (category ch)) with
  | Some a => negb (Ascii.eqb a "C")
  | None => false
  end.

Definition apply (self : t) (data : ProcessorInput) : result ProcessorOutput :=
  let text := _extract_text data in
  match normalize (form self) text with
  | inl e => inl e
  | inr normalized =>
      let normalized :=
        if strip_control self then filter not_control normalized
        else normalized in
      inr {| text := normalized; flag := negb (str_eqb normalized text) |}
  end.

End Unicodedata.

End UnicodeNormalizer.

(** ** CharacterRemapper *)
Module CharacterRemapper.

Definition REMAP : table :=
  [ (0x1220, 0x1230);   (* ሠ -> ሰ *)
    (0x1221, 0x1231);   (* ሡ -> ሱ *)
    (0x1222, 0x1232);   (* ሢ -> ሲ *)
    (0x1223, 0x1233);   (* ሣ -> ሳ *)
    (0x1224, 0x1234);   (* ሤ -> ሴ *)
    (0x1225, 0x1235);   (* ሥ -> ስ *)
    (0x1226, 0x1236);   (* ሦ -> ሶ *)
    (0x1227, 0x1237);   (* ሧ -> ሷ *)
    (0x1210, 0x1200);   (* ሐ -> ሀ *)
    (0x1211, 0x1201);   (* ሑ -> ሁ *)
    (0x1212, 0x1202);   (* ሒ -> ሂ *)
    (0x1213, 0x1200);   (* ሓ -> ሀ *)
    (0x1214, 0x1204);   (* ሔ -> ሄ *)
    (0x1215, 0x1205);   (* ሕ -> ህ *)
    (0x1216, 0x1206);   (* ሖ -> ሆ *)
    (0x1203, 0x1200);   (* ሃ -> ሀ *)
    (0x1280, 0x1200);   (* ኀ -> ሀ *)
    (0x1281, 0x1201);   (* ኁ -> ሁ *)
    (0x1282, 0x1202);   (* ኂ -> ሂ *)
    (0x1283, 0x1200);   (* ኃ -> ሀ *)
    (0x1284, 0x1204);   (* ኄ -> ሄ *)
    (0x1285, 0x1205);   (* ኅ -> ህ *)
    (0x1286, 0x1206);   (* ኆ -> ሆ *)
    (0x128A, 0x1202);   (* ኊ -> ሂ *)
    (0x128B, 0x1200);   (* ኋ -> ሀ *)
    (0x128C, 0x1204);   (* ኌ -> ሄ *)
    (0x128D, 0x1205);   (* ኍ -> ህ *)
    (0x12BE, 0x1206);   (* ኾ -> ሆ *)
    (0x1340, 0x1338);   (* ፀ -> ጸ *)
    (0x1341, 0x1339);   (* ፁ -> ጹ *)
    (0x1342, 0x133A);   (* ፂ -> ጺ *)
    (0x1343, 0x133B);   (* ፃ -> ጻ *)
    (0x1344, 0x133C);   (* ፄ -> ጼ *)
    (0x1345, 0x133D);   (* ፅ -> ጽ *)
    (0x1346, 0x133E);   (* ፆ -> ጾ *)
    (0x1347, 0x133F);   (* ፇ -> ጿ *)
    (0x12EF, 0x12EE);   (* ዯ -> ዮ *)
    (0x12D0, 0x12A0);   (* ዐ -> አ *)
    (0x12D1, 0x12A1);   (* ዑ -> ኡ *)
    (0x12D2, 0x12A2);   (* ዒ -> ኢ *)
    (0x12D3, 0x12A0);   (* ዓ -> አ *)
    (0x12D4, 0x12A4);   (* ዔ -> ኤ *)
    (0x12D5, 0x12A5);   (* ዕ -> እ *)
    (0x12D6, 0x12A6);   (* ዖ -> ኦ *)
    (0x130E, 0x1310);   (* ጎ -> ጐ *)
    (0x12B0, 0x12AE);   (* ኰ -> ኮ *)
    (0x124A, 0x1241);   (* ቊ -> ቁ *)
    (0x12B5, 0x12A9);   (* ኵ -> ኩ *)
    (0x12C9, 0x12CD) ]. (* ዉ -> ው *)

(** The two vowel triggers of the ligature patterns: ዋ and አ. *)
Definition glyph_wa : char := 0x12CB.
Definition glyph_a : char := 0x12A0.

(** One ligature rule [re.sub(r"(b[t1t2])", "l", remapped)]: the base
    glyph, the triggers of the character class, the labialized glyph. *)
Definition rule : Type := char * list char * char.

(** The rules in the order of the source. *)
Definition LIGATURES : list rule :=
  [ (0x1209, [glyph_wa; glyph_a], 0x120F);   (* ሉ[ዋአ] -> ሏ *)
    (0x1219, [glyph_wa; glyph_a], 0x121F);   (* ሙ[ዋአ] -> ሟ *)
    (0x1271, [glyph_wa; glyph_a], 0x1277);   (* ቱ[ዋአ] -> ቷ *)
    (0x1229, [glyph_wa; glyph_a], 0x122F);   (* ሩ[ዋአ] -> ሯ *)
    (0x1231, [glyph_wa; glyph_a], 0x1237);   (* ሱ[ዋአ] -> ሷ *)
    (0x1239, [glyph_wa; glyph_a], 0x123F);   (* ሹ[ዋአ] -> ሿ *)
    (0x1241, [glyph_wa; glyph_a], 0x124B);   (* ቁ[ዋአ] -> ቋ *)
    (0x1261, [glyph_wa; glyph_a], 0x1267);   (* ቡ[ዋአ] -> ቧ *)
    (0x1279, [glyph_wa; glyph_a], 0x127F);   (* ቹ[ዋአ] -> ቿ *)
    (0x1201, [glyph_wa; glyph_a], 0x128B);   (* ሁ[ዋአ] -> ኋ *)
    (0x1291, [glyph_wa; glyph_a], 0x1297);   (* ኑ[ዋአ] -> ኗ *)
    (0x1299, [glyph_wa; glyph_a], 0x129F);   (* ኙ[ዋአ] -> ኟ *)
    (0x12A9, [glyph_wa; glyph_a], 0x12B3);   (* ኩ[ዋአ] -> ኳ *)
    (0x12D9, [glyph_wa; glyph_a], 0x12DF);   (* ዙ[ዋአ] -> ዟ *)
    (0x1309, [glyph_wa; glyph_a], 0x1313);   (* ጉ[ዋአ] -> ጓ *)
    (0x12F0, [glyph_wa; glyph_a], 0x12F7);   (* ደ[ዋአ] -> ዷ *)
    (0x1321, [glyph_wa; glyph_a], 0x1327);   (* ጡ[ዋአ] -> ጧ *)
    (0x1329, [glyph_wa; glyph_a], 0x132F);   (* ጩ[ዋአ] -> ጯ *)
    (0x1339, [glyph_wa; glyph_a], 0x133F);   (* ጹ[ዋአ] -> ጿ *)
    (0x1349, [glyph_wa; glyph_a], 0x134F) ]. (* ፉ[ዋአ] -> ፏ *)

Definition base (r : rule) : char := fst (fst r).
Definition triggers (r : rule) : list char := snd (fst r).
Definition target (r : rule) : char := snd r.

Definition contract (remapped : str) (r : rule) : str :=
  Re.sub (Re.pair (base r) (triggers r)) (fun _ => [target r]) remapped.

Definition ligatures (remapped : str) : str :=
  fold_left contract LIGATURES remapped.

Definition remap (text : str) : str :=
  ligatures (translate REMAP text).

Definition apply (data : ProcessorInput) : ProcessorOutput :=
  let text := _extract_text data in
  let remapped := remap text in
  {| text := remapped; flag := negb (str_eqb remapped text) |}.

End CharacterRemapper.

(** ** Definitions used by the statements and proofs *)

Module ReSpec.
Import Re.

(** A matcher splits the text into a non-empty match and the rest. *)
Definition splits (mt : matcher) : Prop :=
  forall s m rest, mt s = Some (m, rest) -> s = m ++ rest /\ m <> [].

End ReSpec.

(** A stand-in for the character database on ASCII text, where every
    normalization form is the identity; code points beyond ASCII are outside
    this table and are reported as unassigned. *)
Module Ascii7.
Import UnicodeNormalizer.

Definition nf (_ : normal_form) (s : str) : str := s.

Definition category (c : char) : general_category :=
  if c <? 0x20 then Cc
  else if c =? 0x20 then Zs
  else if (0x30 <=? c) && (c <=? 0x39) then Nd
  else if (0x41 <=? c) && (c <=? 0x5A) then Lu
  else if (0x61 <=? c) && (c <=? 0x7A) then Ll
  else if existsb (N.eqb c) [0x24] then Sc
  else if existsb (N.eqb c) [0x2B; 0x3C; 0x3D; 0x3E; 0x7C; 0x7E] then Sm
  else if existsb (N.eqb c) [0x28; 0x5B; 0x7B] then Ps
  else if existsb (N.eqb c) [0x29; 0x5D; 0x7D] then Pe
  else if existsb (N.eqb c) [0x5E; 0x60] then Sk
  else if c =? 0x2D then Pd
  else if c =? 0x5F then Pc
  else if c =? 0x7F then Cc
  else if c <? 0x80 then Po
  else Cn.
End Ascii7.

Definition group_C (g : UnicodeNormalizer.general_category) : Prop :=
  In g [UnicodeNormalizer.Cc; UnicodeNormalizer.Cf; UnicodeNormalizer.Cs;
        UnicodeNormalizer.Co; UnicodeNormalizer.Cn].

Definition quoted_input : str := py "He said “hello”，friend。".

(** The text starts with a character of the class. *)
Definition starts_in (cls : char -> bool) (s : str) : bool :=
  match s with
  | [] => false
  | c :: _ => cls c
  end.

(** The collapse of repeated marks, by structural recursion: a character of
    the class is dropped when another one follows it. *)
Fixpoint squash (cls : char -> bool) (s : str) : str :=
  match s with
  | [] => []
  | c :: t => if cls c && starts_in cls t then squash cls t else c :: squash cls t
  end.

(** The text does not end with a character of the class. *)
Definition ends_outside (cls : char -> bool) (s : str) : Prop :=
  match s with
  | [] => True
  | _ :: _ => cls (last s 0) = false
  end.

(** The text starts with one of the characters [ts]. *)
Definition starts_in_list (ts : list char) (s : str) : bool :=
  starts_in (fun c => existsb (N.eqb c) ts) s.

(** Checks on the ligature table, decided by computation. *)
Fixpoint distinct (l : list char) : bool :=
  match l with
  | [] => true
  | x :: t => negb (existsb (N.eqb x) t) && distinct t
  end.

Definition is_trigger (c : char) : bool :=
  existsb (N.eqb c) [CharacterRemapper.glyph_wa; CharacterRemapper.glyph_a].

(** A rule has the two triggers, and neither its base nor its target is a
    trigger. *)
Definition rule_ok (r : CharacterRemapper.rule) : bool :=
  str_eqb (CharacterRemapper.triggers r)
          [CharacterRemapper.glyph_wa; CharacterRemapper.glyph_a]
  && negb (is_trigger (CharacterRemapper.base r))
  && negb (is_trigger (CharacterRemapper.target r)).

(** The character is the base glyph of no rule of the list. *)
Definition not_base_in (rs : list CharacterRemapper.rule) (c : char) : bool :=
  forallb (fun r => negb (c =? CharacterRemapper.base r)) rs.

(** The underscore, and texts without it. *)
Definition underscore : char := 0x5F.

Definition no_underscore (s : str) : bool :=
  forallb (fun c => negb (c =? underscore)) s.

Definition ascii_digit (c : char) : bool := (0x30 <=? c) && (c <=? 0x39).

(** The word that the tokens of protected decimals are built around, the
    texts that contain a given word, and the texts free of the reserved one. *)
Definition reserved : str := py "DECIMAL_".

Fixpoint has_sub (w s : str) : bool :=
  match s with
  | [] => starts_with w []
  | _ :: t => starts_with w s || has_sub w t
  end.

Definition reserved_free (s : str) : bool := negb (has_sub reserved s).

Definition all_lit (ps : list Re.piece) : bool :=
  forallb (fun p => match p with Re.Lit _ => true | Re.Hit _ => false end) ps.

(** Views of the pieces of the decimal scan: the protected text with tokens
    numbered from [n], the recorded pairs, and the text with the matches put
    back. *)
Fixpoint render (n : nat) (ps : list Re.piece) : str :=
  match ps with
  | [] => []
  | Re.Lit c :: r => c :: render n r
  | Re.Hit _ :: r => PunctuationNormalizer.token n ++ render (S n) r
  end.

Fixpoint recorded (n : nat) (ps : list Re.piece) : list (str * str) :=
  match ps with
  | [] => []
  | Re.Lit _ :: r => recorded n r
  | Re.Hit m :: r => (PunctuationNormalizer.token n, m) :: recorded (S n) r
  end.

Fixpoint flat (ps : list Re.piece) : str :=
  match ps with
  | [] => []
  | Re.Lit c :: r => c :: flat r
  | Re.Hit m :: r => m ++ flat r
  end.

(** The scanned pieces under a character map and under the collapse of
    repeated marks; the matches are kept as they are. *)
Definition map_lit (f : char -> char) (ps : list Re.piece) : list Re.piece :=
  map (fun p => match p with Re.Lit c => Re.Lit (f c) | Re.Hit m => Re.Hit m end) ps.

Definition starts_lit (cls : char -> bool) (ps : list Re.piece) : bool :=
  match ps with
  | Re.Lit c :: _ => cls c
  | _ => false
  end.

Fixpoint squash_pieces (cls : char -> bool) (ps : list Re.piece) : list Re.piece :=
  match ps with
  | [] => []
  | Re.Lit c :: r =>
      if cls c && starts_lit cls r then squash_pieces cls r
      else Re.Lit c :: squash_pieces cls r
  | Re.Hit m :: r => Re.Hit m :: squash_pieces cls r
  end.

(** The shape of a match of [\d+\.\d+]. *)
Definition decimal_shaped (m : str) : Prop :=
  exists ds es, m = ds ++ 0x2E :: es /\ ds <> [] /\ es <> []
                /\ forallb isdigit ds = true /\ forallb isdigit es = true.

Definition on_hits (P : str -> Prop) (ps : list Re.piece) : Prop :=
  Forall (fun p => match p with Re.Lit _ => True | Re.Hit m => P m end) ps.

(** The squeeze of white space, by structural recursion: a white-space
    character is dropped when another one follows it and becomes a space
    otherwise. *)
Fixpoint squeeze_ws (cls : char -> bool) (s : str) : str :=
  match s with
  | [] => []
  | c :: t =>
      if cls c then
        if starts_in cls t then squeeze_ws cls t else 0x20 :: squeeze_ws cls t
      else c :: squeeze_ws cls t
  end.

(** No two characters of the class are next to each other. *)
Fixpoint no_adjacent (cls : char -> bool) (s : str) : bool :=
  match s with
  | [] => true
  | c :: t => negb (cls c && starts_in cls t) && no_adjacent cls t
  end.

(** The placeholder pattern [__DECIMAL_<n>__] at the start of a text, and
    anywhere in it. *)
Definition placeholder_here (s : str) : bool :=
  starts_with (py "__DECIMAL_") s
  && (let (ds, r) := span ascii_digit (skipn 10 s) in
      negb (Nat.eqb (length ds) 0) && starts_with (py "__") r).

Fixpoint has_placeholder (s : str) : bool :=
  match s with
  | [] => false
  | _ :: t => placeholder_here s || has_placeholder t
  end.

(** The text has a decimal literal: the scan for [\d+\.\d+] finds a match. *)
Definition has_decimal (s : str) : bool :=
  existsb (fun p => match p with Re.Hit _ => true | Re.Lit _ => false end)
          (Re.finditer Re.decimal s).

(** Every character of the class is a plain space. *)
Definition only_space (cls : char -> bool) (s : str) : bool :=
  forallb (fun c => negb (cls c) || (c =? 0x20)) s.

Abbreviation PT := PunctuationNormalizer.PUNCT_TRANSLATION (only parsing).
Abbreviation punct := PunctuationNormalizer.punct_all (only parsing).

(** The text has no key of the punctuation table. *)
Definition PT_free (s : str) : bool :=
  forallb (fun c => translate_char PT c =? c) s.

(** The base glyph of the rule is nowhere followed by one of its triggers. *)
Fixpoint pair_free (r : CharacterRemapper.rule) (s : str) : bool :=
  match s with
  | [] => true
  | c :: t =>
      negb ((c =? CharacterRemapper.base r)
            && starts_in_list (CharacterRemapper.triggers r) t)
      && pair_free r t
  end.

(** The labialized glyph U+128B, and texts without it. *)
Definition glyph_hwa : char := 0x128B.

(** ** Definitions used by the further properties *)

(** White space in normal form: single plain spaces, none at either end. *)
Definition ws_normal (s : str) : bool :=
  no_adjacent isspace s && only_space isspace s
  && negb (starts_in isspace s) && negb (starts_in isspace (rev s)).

(** A text in the normal form of the punctuation stage: no key of the
    table, no two marks in a row, white space in normal form. *)
Definition canonical (s : str) : bool :=
  PT_free s && no_adjacent punct s && ws_normal s.

(** The characters that the punctuation stage has no rule for: not a key
    or a value of the table, not a mark of the collapsing class, not white
    space. *)
Definition content (c : char) : bool :=
  match lookup PT c with None => true | Some _ => false end
  && negb (existsb (N.eqb c) (map snd PT))
  && negb (punct c) && negb (isspace c).

(** The rule fires on the two characters [c] and [d]. *)
Definition fires (c d : char) (r : CharacterRemapper.rule) : bool :=
  (c =? CharacterRemapper.base r)
  && existsb (N.eqb d) (CharacterRemapper.triggers r).

(** One scan of the text from the left with all the rules at once: at a
    pair that a rule fires on, the pair is replaced by the target of the
    rule and the scan goes on after the pair. *)
Fixpoint one_pass (rs : list CharacterRemapper.rule) (s : str) : str :=
  match s with
  | [] => []
  | c :: t =>
      match t with
      | [] => [c]
      | d :: u =>
          match find (fires c d) rs with
          | Some r => CharacterRemapper.target r :: one_pass rs u
          | None => c :: one_pass rs t
          end
      end
  end.

(** A text the remapper has nothing to do on: no character is changed by
    the table and no rule has a pair to contract. *)
Definition settled (s : str) : bool :=
  forallb (fun c => translate_char CharacterRemapper.REMAP c =? c) s
  && forallb (fun r => pair_free r s) CharacterRemapper.LIGATURES.

(** The matches of a scan, in their order. *)
Fixpoint hits (ps : list Re.piece) : list str :=
  match ps with
  | [] => []
  | Re.Lit _ :: r => hits r
  | Re.Hit m :: r => m :: hits r
  end.

(** * Properties *)

(** ** The scanner *)

Module ReFacts.
Import Re.
Import ReSpec.

Lemma splits_shorter mt s m rest :
  splits mt -> mt s = Some (m, rest) -> (length rest < length s)%nat.
Proof.
  intros H E. destruct (H _ _ _ E) as [-> Hm].
  rewrite length_app. destruct m; [congruence | simpl; lia].
Qed.

Lemma scan_fuel mt (Hmt : splits mt) :
  forall f1 f2 s, (length s <= f1)%nat -> (length s <= f2)%nat ->
                  scan mt f1 s = scan mt f2 s.
Proof.
  induction f1 as [|f1 IH]; intros f2 s H1 H2.
  - destruct s; [|simpl in H1; lia]. destruct f2; reflexivity.
  - destruct f2 as [|f2].
    + destruct s; [reflexivity | simpl in H2; lia].
    + destruct s as [|c t]; [reflexivity|]. simpl.
      destruct (mt (c :: t)) as [[m rest]|] eqn:E.
      * pose proof (splits_shorter _ _ _ _ Hmt E) as L. simpl in *.
        f_equal. apply IH; lia.
      * f_equal. simpl in *. apply IH; lia.
Qed.

(** The scanner always has fuel enough: its result obeys the equations of
    the unbounded scan. *)
Lemma finditer_nil mt : finditer mt [] = [].
Proof. reflexivity. Qed.

Lemma finditer_cons mt (Hmt : splits mt) c t :
  finditer mt (c :: t) =
  match mt (c :: t) with
  | Some (m, rest) => Hit m :: finditer mt rest
  | None => Lit c :: finditer mt t
  end.
Proof.
  unfold finditer. simpl.
  destruct (mt (c :: t)) as [[m rest]|] eqn:E.
  - pose proof (splits_shorter _ _ _ _ Hmt E) as L. simpl in L.
    f_equal. apply scan_fuel; trivial; lia.
  - reflexivity.
Qed.

Lemma sub_nil mt repl : sub mt repl [] = [].
Proof. reflexivity. Qed.

Lemma sub_cons mt (Hmt : splits mt) repl c t :
  sub mt repl (c :: t) =
  match mt (c :: t) with
  | Some (m, rest) => repl m ++ sub mt repl rest
  | None => c :: sub mt repl t
  end.
Proof.
  unfold sub. rewrite finditer_cons by assumption.
  destruct (mt (c :: t)) as [[m rest]|]; reflexivity.
Qed.

Lemma span_app p s : forall a b, span p s = (a, b) -> s = a ++ b.
Proof.
  induction s as [|c t IH]; simpl; intros a b E.
  - inversion E. reflexivity.
  - destruct (p c).
    + destruct (span p t) as [a' b']. inversion E; subst.
      simpl. f_equal. apply IH. reflexivity.
    + inversion E. reflexivity.
Qed.

Lemma span_all p s : forall a b, span p s = (a, b) -> forallb p a = true.
Proof.
  induction s as [|c t IH]; simpl; intros a b E.
  - inversion E. reflexivity.
  - destruct (p c) eqn:Pc.
    + destruct (span p t) as [a' b']. inversion E; subst.
      simpl. rewrite Pc. apply (IH _ _ eq_refl).
    + inversion E. reflexivity.
Qed.

Lemma span_stop p s : forall a b, span p s = (a, b) ->
  match b with [] => True | c :: _ => p c = false end.
Proof.
  induction s as [|c t IH]; simpl; intros a b E.
  - inversion E. exact I.
  - destruct (p c) eqn:Pc.
    + destruct (span p t) as [a' b']. inversion E; subst.
      apply (IH _ _ eq_refl).
    + inversion E. subst. exact Pc.
Qed.

Lemma splits_decimal : splits decimal.
Proof.
  intros s m rest. unfold decimal.
  destruct (span isdigit s) as [ds r1] eqn:E1.
  destruct ds as [|d ds]; [discriminate|].
  destruct r1 as [|c r2]; [discriminate|].
  destruct (c =? 0x2E); [|discriminate].
  destruct (span isdigit r2) as [es r3] eqn:E2.
  destruct es as [|e es]; [discriminate|].
  intros H. inversion H; subst. split; [|discriminate].
  rewrite (span_app _ _ _ _ E1), (span_app _ _ _ _ E2).
  simpl. rewrite <- app_assoc. reflexivity.
Qed.

Lemma splits_repeated cls : splits (repeated cls).
Proof.
  intros s m rest. unfold repeated.
  destruct (span cls s) as [a b] eqn:E.
  destruct (2 <=? length a)%nat eqn:L; [|discriminate].
  intros H. inversion H; subst. split.
  - apply (span_app _ _ _ _ E).
  - apply Nat.leb_le in L. destruct m; [simpl in L; lia | discriminate].
Qed.

Lemma splits_plus cls : splits (plus cls).
Proof.
  intros s m rest. unfold plus.
  destruct (span cls s) as [a b] eqn:E.
  destruct a as [|x a]; [discriminate|].
  intros H. inversion H; subst. split; [|discriminate].
  apply (span_app _ _ _ _ E).
Qed.

Lemma splits_pair b ts : splits (pair b ts).
Proof.
  intros s m rest. unfold pair.
  destruct s as [|c [|d r]]; try discriminate.
  destruct ((c =? b) && existsb (N.eqb d) ts); [|discriminate].
  intros H. inversion H; subst. split; [reflexivity | discriminate].
Qed.

Lemma starts_with_split old : forall s,
  starts_with old s = true -> s = old ++ skipn (length old) s.
Proof.
  induction old as [|o old IH]; intros s H; [reflexivity|].
  destruct s as [|c s]; [discriminate|]. simpl in H.
  apply andb_true_iff in H. destruct H as [H1 H2].
  apply N.eqb_eq in H1. subst. simpl. f_equal. apply IH, H2.
Qed.

Lemma starts_with_app old x : starts_with old (old ++ x) = true.
Proof.
  induction old as [|o old IH]; [reflexivity|].
  simpl. rewrite N.eqb_refl. exact IH.
Qed.

Lemma splits_literal old : old <> [] -> splits (literal old).
Proof.
  intros Hne s m rest. unfold literal.
  destruct (starts_with old s) eqn:E; [|discriminate].
  intros H. inversion H; subst. split; [|assumption].
  apply starts_with_split, E.
Qed.

End ReFacts.

Create HintDb re.
#[export] Hint Resolve ReFacts.splits_decimal ReFacts.splits_repeated
  ReFacts.splits_plus ReFacts.splits_pair : re.

Lemma str_eqb_eq a b : str_eqb a b = true <-> a = b.
Proof.
  unfold str_eqb. destruct (list_eq_dec N.eq_dec a b); split; congruence.
Qed.

Lemma negb_str_eqb a b : negb (str_eqb a b) = true <-> a <> b.
Proof.
  rewrite negb_true_iff, <- not_true_iff_false, str_eqb_eq. reflexivity.
Qed.

(** ** Tables *)

Lemma lookup_In t c v : lookup t c = Some v -> In (c, v) t.
Proof.
  induction t as [|[k w] t IH]; simpl; [discriminate|].
  destruct (k =? c) eqn:E.
  - apply N.eqb_eq in E. intros H. inversion H. subst. now left.
  - intros H. right. auto.
Qed.

Lemma translate_app t a b : translate t (a ++ b) = translate t a ++ translate t b.
Proof. apply map_app. Qed.

(** ** Worked inputs of the punctuation stage *)

(** C2 (as stated): the code does not return "It costs 8.5% today!" on
    "It costs 8.5%%% today!!". *)
Lemma percent_run_not_collapsed :
  text (PunctuationNormalizer.apply (RawText (py "It costs 8.5%%% today!!")))
  <> py "It costs 8.5% today!".
Proof. vm_compute. discriminate. Qed.

(** C2 (amended): on "It costs 8.5%%% today!!" the punctuation stage returns
    "It costs 8.5%%% today!" with the flag set: the decimal point stays, the
    repeated '!' collapses to one, and the run of '%' (not a mark of the
    collapsing class) is kept as it is. *)
Theorem decimal_example_keeps_percent_run :
  PunctuationNormalizer.apply (RawText (py "It costs 8.5%%% today!!"))
  = {| text := py "It costs 8.5%%% today!"; flag := true |}.
Proof. vm_compute. reflexivity. Qed.

(** C6 (as stated): the code does not return [He said "hello", friend.] (with
    a space after the comma) on the input with curly quotes and CJK marks. *)
Lemma unification_example_has_no_space :
  text (PunctuationNormalizer.apply (RawText quoted_input))
  <> py "He said " ++ [0x22] ++ py "hello" ++ [0x22] ++ py ", friend.".
Proof. vm_compute. discriminate. Qed.

(** C6 (amended): on that input the stage returns [He said "hello",friend.]:
    straight quotes, ASCII comma and full stop, and no space is inserted
    after the comma. *)
Theorem unification_example :
  PunctuationNormalizer.apply (RawText quoted_input)
  = {| text := py "He said " ++ [0x22] ++ py "hello" ++ [0x22] ++ py ",friend.";
       flag := true |}.
Proof. vm_compute. reflexivity. Qed.

(** ** The changed flags *)

(** C7: for every stage and input, the flag of the returned record is true
    exactly when the returned text differs from the extracted input text. *)
Theorem flag_correct :
  (forall data,
      flag (PunctuationNormalizer.apply data) = true <->
      text (PunctuationNormalizer.apply data) <> _extract_text data)
  /\ (forall data,
      flag (CharacterRemapper.apply data) = true <->
      text (CharacterRemapper.apply data) <> _extract_text data)
  /\ (forall nf category self data out,
      UnicodeNormalizer.apply nf category self data = inr out ->
      (flag out = true <-> text out <> _extract_text data)).
Proof.
  split; [|split].
  - intros data. unfold PunctuationNormalizer.apply. cbn [text flag].
    apply negb_str_eqb.
  - intros data. unfold CharacterRemapper.apply. cbn [text flag].
    apply negb_str_eqb.
  - intros nf category self data out H.
    unfold UnicodeNormalizer.apply in H.
    destruct (UnicodeNormalizer.normalize nf _ _); [discriminate|].
    inversion H; subst; cbn [text flag]. apply negb_str_eqb.
Qed.

Lemma flag_correct_witness :
  exists out,
    UnicodeNormalizer.apply Ascii7.nf Ascii7.category
      {| UnicodeNormalizer.form := "NFC"; UnicodeNormalizer.strip_control := true |}
      (WithText ((py "tab" ++ [0x09] ++ py "bed"))) = inr out
    /\ (flag out = true <-> text out <> (py "tab" ++ [0x09] ++ py "bed")).
Proof.
  eexists. split; [reflexivity|].
  apply (proj2 (proj2 flag_correct) Ascii7.nf Ascii7.category
           {| UnicodeNormalizer.form := "NFC"; UnicodeNormalizer.strip_control := true |}
           (WithText ((py "tab" ++ [0x09] ++ py "bed")))).
  reflexivity.
Defined.

(** ** UnicodeNormalizer *)

Lemma not_control_spec category ch :
  UnicodeNormalizer.not_control category ch = true <-> ~ group_C (category ch).
Proof.
  unfold UnicodeNormalizer.not_control, group_C.
  destruct (category ch); simpl; split; intros H; try reflexivity;
    try discriminate; try (intros K; repeat (destruct K as [K|K]; try discriminate K); contradiction);
    exfalso; apply H; tauto.
Qed.

(** C8: with [strip_control] true, no character of the returned text has a
    general category of group C: the first letter of its category name is
    never "C", and every code point of category Cc, Cf, Cs, Co or Cn is
    absent from the text. *)
Theorem strip_control_removes_group_C nf category name data out :
  UnicodeNormalizer.apply nf category
    {| UnicodeNormalizer.form := name; UnicodeNormalizer.strip_control := true |}
    data = inr out ->
  (forall ch, In ch (text out) ->
     String.get 0 (UnicodeNormalizer.abbrev (category ch)) <> Some "C"%char)
  /\ (forall ch, group_C (category ch) -> ~ In ch (text out)).
Proof.
  unfold UnicodeNormalizer.apply. simpl.
  destruct (UnicodeNormalizer.normalize nf name _) as [e|n]; [discriminate|].
  intros H. inversion H; subst; clear H. simpl. split.
  - intros ch Hin. apply filter_In in Hin. destruct Hin as [_ Hc].
    unfold UnicodeNormalizer.not_control in Hc.
    destruct (String.get 0 _) as [a|]; [|discriminate].
    intros K. inversion K; subst. discriminate.
  - intros ch Hg Hin. apply filter_In in Hin. destruct Hin as [_ Hc].
    apply not_control_spec in Hc. contradiction.
Qed.

Lemma strip_control_removes_group_C_witness :
  exists out,
    UnicodeNormalizer.apply Ascii7.nf Ascii7.category
      {| UnicodeNormalizer.form := "NFC"; UnicodeNormalizer.strip_control := true |}
      (RawText ((py "tab" ++ [0x09] ++ py "bed"))) = inr out
    /\ text out = py "tabbed"
    /\ ((forall ch, In ch (text out) ->
          String.get 0 (UnicodeNormalizer.abbrev (Ascii7.category ch)) <> Some "C"%char)
        /\ (forall ch, group_C (Ascii7.category ch) -> ~ In ch (text out))).
Proof.
  eexists. split; [reflexivity|]. split; [reflexivity|].
  apply (strip_control_removes_group_C Ascii7.nf Ascii7.category "NFC"
           (RawText ((py "tab" ++ [0x09] ++ py "bed")))).
  reflexivity.
Defined.

(** C4 (as stated): construction with an unsupported form name succeeds, and
    the form is rejected only by [apply]. *)
Lemma unsupported_form_is_constructed :
  exists self,
    UnicodeNormalizer.__init__ "NFX" true = inr self
    /\ UnicodeNormalizer.form_of_name "NFX" = None
    /\ forall nf category,
        UnicodeNormalizer.apply nf category self (RawText (py "abc"))
        = inl (ValueError "invalid normalization form").
Proof. eexists. repeat split. Qed.

(** C4 (amended): constructing a UnicodeNormalizer never fails, whatever the
    form name: the name is stored unchecked.  An unsupported name is rejected
    by [apply], which raises ValueError on every non-empty text. *)
Theorem unsupported_form_rejected_by_apply nf category name sc :
  UnicodeNormalizer.form_of_name name = None ->
  UnicodeNormalizer.__init__ name sc
  = inr {| UnicodeNormalizer.form := name; UnicodeNormalizer.strip_control := sc |}
  /\ forall data, _extract_text data <> [] ->
       UnicodeNormalizer.apply nf category
         {| UnicodeNormalizer.form := name; UnicodeNormalizer.strip_control := sc |} data
       = inl (ValueError "invalid normalization form").
Proof.
  intros Hn. split; [reflexivity|]. intros data Hd.
  unfold UnicodeNormalizer.apply, UnicodeNormalizer.normalize. simpl.
  destruct (_extract_text data); [congruence|]. rewrite Hn. reflexivity.
Qed.

Lemma unsupported_form_rejected_by_apply_witness :
  UnicodeNormalizer.__init__ "nfc" true
  = inr {| UnicodeNormalizer.form := "nfc"; UnicodeNormalizer.strip_control := true |}
  /\ forall data, _extract_text data <> [] ->
       UnicodeNormalizer.apply Ascii7.nf Ascii7.category
         {| UnicodeNormalizer.form := "nfc"; UnicodeNormalizer.strip_control := true |} data
       = inl (ValueError "invalid normalization form").
Proof.
  apply (unsupported_form_rejected_by_apply Ascii7.nf Ascii7.category "nfc" true).
  reflexivity.
Defined.

(** ** Collapsing repeated marks *)

Section Squash.
Variable cls : char -> bool.

Lemma group1_cons x l : l <> [] -> Re.group1 (x :: l) = Re.group1 l.
Proof.
  intros Hl. unfold Re.group1. simpl.
  destruct (rev l) as [|y r] eqn:E.
  - apply (f_equal (@rev _)) in E. rewrite rev_involutive in E. contradiction.
  - reflexivity.
Qed.

Lemma group1_last m : m <> [] -> Re.group1 m = [last m 0].
Proof.
  induction m as [|x [|y m] IH]; intros H; [contradiction | reflexivity |].
  rewrite group1_cons by discriminate. rewrite IH by discriminate. reflexivity.
Qed.

Lemma squash_run m b :
  forallb cls m = true -> m <> [] -> starts_in cls b = false ->
  squash cls (m ++ b) = Re.group1 m ++ squash cls b.
Proof.
  intros Hm Hne Hb. induction m as [|x [|y m] IH]; [contradiction | |].
  - simpl. rewrite Hb, andb_false_r. reflexivity.
  - rewrite group1_cons by discriminate.
    rewrite <- IH; [|simpl in Hm |- *; apply andb_true_iff in Hm; tauto | discriminate].
    simpl in Hm. apply andb_true_iff in Hm. destruct Hm as [Hx Hm].
    apply andb_true_iff in Hm. destruct Hm as [Hy _].
    simpl. rewrite Hx, Hy. reflexivity.
Qed.

Lemma squash_app a x :
  ends_outside cls a -> squash cls (a ++ x) = squash cls a ++ squash cls x.
Proof.
  induction a as [|c [|d a] IH]; intros H; [reflexivity | |].
  - simpl in H. simpl. rewrite H. reflexivity.
  - change ((c :: d :: a) ++ x) with (c :: (d :: a) ++ x).
    change (squash cls (c :: (d :: a) ++ x)) with
      (if cls c && cls d then squash cls ((d :: a) ++ x)
       else c :: squash cls ((d :: a) ++ x)).
    change (squash cls (c :: d :: a)) with
      (if cls c && cls d then squash cls (d :: a) else c :: squash cls (d :: a)).
    rewrite IH by exact H. destruct (cls c && cls d); reflexivity.
Qed.

Lemma sub_repeated_squash s :
  Re.sub (Re.repeated cls) Re.group1 s = squash cls s.
Proof.
  remember (length s) as n eqn:Hn. revert s Hn.
  induction n as [n IH] using lt_wf_ind. intros s Hn.
  destruct s as [|c t]; [reflexivity|].
  rewrite ReFacts.sub_cons by auto with re.
  remember (Re.repeated cls (c :: t)) as o eqn:Eo.
  unfold Re.repeated in Eo. simpl span in Eo.
  simpl squash.
  destruct (cls c) eqn:Hc.
  - destruct (span cls t) as [a b] eqn:E.
    pose proof (ReFacts.span_app _ _ _ _ E) as Ht.
    pose proof (ReFacts.span_all _ _ _ _ E) as Ha.
    pose proof (ReFacts.span_stop _ _ _ _ E) as Hb.
    assert (Hs : starts_in cls b = false) by (destruct b; [reflexivity | exact Hb]).
    destruct a as [|d a].
    + simpl in Eo, Ht. subst o t. rewrite Hs. simpl. f_equal.
      apply (IH (length b)); [subst n; simpl; lia | reflexivity].
    + simpl in Eo. subst o.
      rewrite (IH (length b)); [| subst n t; simpl; rewrite length_app; lia | reflexivity].
      subst t. simpl in Ha. apply andb_true_iff in Ha. destruct Ha as [Hd Ha].
      simpl starts_in. rewrite Hd. simpl andb.
      rewrite group1_cons by discriminate.
      symmetry. apply squash_run; [simpl; rewrite Hd; exact Ha | discriminate | exact Hs].
  - simpl in Eo. subst o. simpl. f_equal.
    apply (IH (length t)); [subst n; simpl; lia | reflexivity].
Qed.

End Squash.

Lemma collapse_squash s :
  PunctuationNormalizer.collapse s = squash PunctuationNormalizer.punct_all s.
Proof. apply sub_repeated_squash. Qed.

(** C1 (as stated): the mixed run "?!" does not collapse to its first mark. *)
Lemma mixed_run_not_first_mark :
  text (PunctuationNormalizer.apply (RawText (py "?!"))) <> py "?".
Proof. vm_compute. discriminate. Qed.

(** The collapse on a run: a run of two or more marks of the class,
    delimited on both sides by the ends of the text or by characters
    outside the class, is replaced by its last mark; the text before and
    after the run is collapsed on its own. *)
Lemma collapse_run a run b :
  forallb PunctuationNormalizer.punct_all run = true ->
  (2 <= length run)%nat ->
  ends_outside PunctuationNormalizer.punct_all a ->
  starts_in PunctuationNormalizer.punct_all b = false ->
  PunctuationNormalizer.collapse (a ++ run ++ b)
  = PunctuationNormalizer.collapse a ++ [last run 0]
    ++ PunctuationNormalizer.collapse b.
Proof.
  intros Hrun Hlen Ha Hb. rewrite !collapse_squash.
  assert (Hne : run <> []) by (destruct run; [simpl in Hlen; lia | discriminate]).
  rewrite squash_app by exact Ha.
  rewrite squash_run by assumption.
  rewrite group1_last by assumption. reflexivity.
Qed.

(** ** CharacterRemapper *)

Lemma translate_REMAP_no_labialized_h s :
  ~ In 0x128B (translate CharacterRemapper.REMAP s).
Proof.
  unfold translate. rewrite in_map_iff. intros [c [Hc _]].
  unfold translate_char in Hc.
  destruct (lookup CharacterRemapper.REMAP c) as [v|] eqn:E.
  - apply lookup_In in E. subst v.
    apply (in_map snd) in E. simpl in E.
    repeat (destruct E as [E|E]; [discriminate E|]). exact E.
  - subst c. vm_compute in E. discriminate.
Qed.

(** C9: the table maps the labialized glyph U+128B to U+1200 while the
    ligature rule of U+1201 produces U+128B from both triggers; the table
    pass turns every U+128B of an input into U+1200 (and leaves none), and
    remapping the output of remapping U+1201 U+12CB gives U+1200. *)
Theorem labialized_h_is_remapped_away :
  lookup CharacterRemapper.REMAP 0x128B = Some 0x1200
  /\ text (CharacterRemapper.apply (RawText (py "ሁዋ"))) = py "ኋ"
  /\ text (CharacterRemapper.apply (RawText (py "ሁአ"))) = py "ኋ"
  /\ (forall a b,
        translate CharacterRemapper.REMAP (a ++ py "ኋ" ++ b)
        = translate CharacterRemapper.REMAP a ++ py "ሀ"
          ++ translate CharacterRemapper.REMAP b)
  /\ (forall s, ~ In 0x128B (translate CharacterRemapper.REMAP s))
  /\ text (CharacterRemapper.apply
             (RawText (text (CharacterRemapper.apply (RawText (py "ሁዋ"))))))
     = py "ሀ"
  /\ py "ሀ" <> py "ኋ".
Proof.
  split; [reflexivity|]. split; [vm_compute; reflexivity|].
  split; [vm_compute; reflexivity|]. split.
  - intros a b. rewrite !translate_app. reflexivity.
  - split; [exact translate_REMAP_no_labialized_h|].
    split; [vm_compute; reflexivity | vm_compute; discriminate].
Qed.

(** *** Ligature rules *)

Section Contract.
Import CharacterRemapper.
Variable r : rule.

Lemma contract_nil : contract [] r = [].
Proof. reflexivity. Qed.

Lemma contract_one c : contract [c] r = [c].
Proof. reflexivity. Qed.

Lemma contract_cons2 c d s :
  contract (c :: d :: s) r =
  if (c =? base r) && existsb (N.eqb d) (triggers r)
  then target r :: contract s r
  else c :: contract (d :: s) r.
Proof.
  unfold contract. rewrite ReFacts.sub_cons by auto with re.
  unfold Re.pair at 1.
  destruct ((c =? base r) && existsb (N.eqb d) (triggers r)); reflexivity.
Qed.

Lemma contract_cons_other c s :
  (c =? base r) = false -> contract (c :: s) r = c :: contract s r.
Proof.
  intros Hc. destruct s as [|d s]; [reflexivity|].
  rewrite contract_cons2, Hc. reflexivity.
Qed.

Lemma contract_cons_lone c d s :
  existsb (N.eqb d) (triggers r) = false ->
  contract (c :: d :: s) r = c :: contract (d :: s) r.
Proof.
  intros Hd. rewrite contract_cons2, Hd, andb_false_r. reflexivity.
Qed.

Lemma contract_fire t s :
  existsb (N.eqb t) (triggers r) = true ->
  contract (base r :: t :: s) r = target r :: contract s r.
Proof.
  intros Ht. rewrite contract_cons2, N.eqb_refl, Ht. reflexivity.
Qed.

(** A pass splits at a place where no pair can straddle. *)
Lemma contract_app_hd u v :
  starts_in_list (triggers r) v = false ->
  contract (u ++ v) r = contract u r ++ contract v r.
Proof.
  intros Hv. remember (length u) as n eqn:Hn. revert u Hn.
  induction n as [n IH] using lt_wf_ind. intros u Hn.
  destruct u as [|c [|d u]]; [reflexivity | |].
  - rewrite contract_one. simpl app. destruct v as [|d v]; [reflexivity|].
    apply contract_cons_lone. exact Hv.
  - change ((c :: d :: u) ++ v) with (c :: d :: u ++ v). rewrite !contract_cons2.
    destruct ((c =? base r) && existsb (N.eqb d) (triggers r)).
    + simpl app. f_equal. apply (IH (length u)); [subst n; simpl; lia | reflexivity].
    + simpl app. f_equal.
      apply (IH (length (d :: u)) ltac:(subst n; simpl; lia) (d :: u) eq_refl).
Qed.

End Contract.

Section Ligatures.
Import CharacterRemapper.

Lemma distinct_NoDup l : distinct l = true -> NoDup l.
Proof.
  induction l as [|x l IH]; simpl; intros H; constructor.
  - apply andb_true_iff in H. destruct H as [H _].
    apply negb_true_iff in H. intros Hin.
    assert (existsb (N.eqb x) l = true); [|congruence].
    apply existsb_exists. exists x. split; [assumption | apply N.eqb_refl].
  - apply andb_true_iff in H. apply IH, H.
Qed.

Lemma rule_ok_spec r :
  rule_ok r = true ->
  triggers r = [glyph_wa; glyph_a]
  /\ is_trigger (base r) = false /\ is_trigger (target r) = false.
Proof.
  unfold rule_ok. rewrite !andb_true_iff, !negb_true_iff, str_eqb_eq. tauto.
Qed.

Lemma starts_contract r v :
  rule_ok r = true ->
  starts_in is_trigger v = false ->
  starts_in is_trigger (contract v r) = false.
Proof.
  intros Hr Hv. apply rule_ok_spec in Hr. destruct Hr as (_ & _ & Ht).
  destruct v as [|c [|d v]]; [reflexivity | exact Hv |].
  rewrite contract_cons2.
  destruct ((c =? base r) && existsb (N.eqb d) (triggers r)); [exact Ht | exact Hv].
Qed.

(** All passes split at a place that starts outside the triggers. *)
Lemma passes_app rs : forall u v,
  forallb rule_ok rs = true ->
  starts_in is_trigger v = false ->
  fold_left contract rs (u ++ v)
  = fold_left contract rs u ++ fold_left contract rs v.
Proof.
  induction rs as [|r rs IH]; intros u v Hrs Hv; [reflexivity|].
  simpl in Hrs. apply andb_true_iff in Hrs. destruct Hrs as [Hr Hrs].
  cbn [fold_left]. rewrite contract_app_hd.
  - apply IH; [exact Hrs | apply starts_contract; assumption].
  - apply rule_ok_spec in Hr. destruct Hr as (-> & _). exact Hv.
Qed.

(** A character that is no base glyph goes through all passes. *)
Lemma passes_cons rs : forall c s,
  not_base_in rs c = true ->
  fold_left contract rs (c :: s) = c :: fold_left contract rs s.
Proof.
  induction rs as [|r rs IH]; intros c s Hc; [reflexivity|].
  simpl in Hc. apply andb_true_iff in Hc. destruct Hc as [Hc Hrs].
  apply negb_true_iff in Hc.
  cbn [fold_left]. rewrite contract_cons_other by exact Hc. apply IH, Hrs.
Qed.

Lemma split_at_rule (rs : list rule) r :
  NoDup (map base rs) -> In r rs ->
  exists pre post, rs = pre ++ r :: post /\ not_base_in pre (base r) = true.
Proof.
  intros Hnd Hin. destruct (in_split _ _ Hin) as (pre & post & ->).
  exists pre, post. split; [reflexivity|].
  rewrite map_app in Hnd. simpl in Hnd. apply NoDup_remove_2 in Hnd.
  unfold not_base_in. apply forallb_forall. intros r' Hr'.
  apply negb_true_iff, N.eqb_neq. intros E. apply Hnd.
  apply in_or_app. left. rewrite E. apply in_map, Hr'.
Qed.

Lemma not_base_in_app pre post c :
  not_base_in (pre ++ post) c = not_base_in pre c && not_base_in post c.
Proof. apply forallb_app. Qed.

(** The base glyph of a rule followed by a trigger, through all passes. *)
Lemma passes_fire pre r post t s :
  not_base_in pre (base r) = true ->
  not_base_in (pre ++ r :: post) t = true ->
  not_base_in post (target r) = true ->
  existsb (N.eqb t) (triggers r) = true ->
  fold_left contract (pre ++ r :: post) (base r :: t :: s)
  = target r :: fold_left contract (pre ++ r :: post) s.
Proof.
  intros Hpre Ht Hpost Htr.
  rewrite !fold_left_app. cbn [fold_left].
  rewrite not_base_in_app in Ht. apply andb_true_iff in Ht. destruct Ht as [Ht _].
  rewrite passes_cons by exact Hpre.
  rewrite passes_cons by exact Ht.
  rewrite contract_fire by exact Htr.
  apply passes_cons, Hpost.
Qed.

Lemma LIGATURES_ok : forallb rule_ok LIGATURES = true.
Proof. vm_compute. reflexivity. Qed.

Lemma LIGATURES_distinct : NoDup (map base LIGATURES).
Proof. apply distinct_NoDup. vm_compute. reflexivity. Qed.

Lemma triggers_not_bases t :
  is_trigger t = true -> not_base_in LIGATURES t = true.
Proof.
  unfold is_trigger. simpl. rewrite !orb_true_iff, !N.eqb_eq.
  intros [->|[->|H]]; [vm_compute; reflexivity | vm_compute; reflexivity | discriminate].
Qed.

Lemma targets_not_bases r :
  In r LIGATURES -> not_base_in LIGATURES (target r) = true.
Proof.
  revert r. apply forallb_forall. vm_compute. reflexivity.
Qed.

Lemma ligatures_fire r t a b :
  In r LIGATURES -> is_trigger t = true ->
  ligatures (a ++ [base r; t] ++ b)
  = ligatures a ++ [target r] ++ ligatures b.
Proof.
  intros Hr Ht. unfold ligatures.
  pose proof (proj1 (forallb_forall _ _) LIGATURES_ok r Hr) as Hok.
  apply rule_ok_spec in Hok. destruct Hok as (Htr & Hb & Htg).
  rewrite passes_app; [| exact LIGATURES_ok | exact Hb].
  f_equal.
  change ([base r; t] ++ b) with (base r :: t :: b).
  change ([target r] ++ fold_left contract LIGATURES b)
    with (target r :: fold_left contract LIGATURES b).
  destruct (split_at_rule _ _ LIGATURES_distinct Hr) as (pre & post & E & Hpre).
  pose proof (targets_not_bases r Hr) as Hpost.
  pose proof (triggers_not_bases t Ht) as Htb.
  rewrite E in Hpost, Htb |- *.
  rewrite not_base_in_app in Hpost. apply andb_true_iff in Hpost.
  destruct Hpost as [_ Hpost]. simpl in Hpost.
  apply andb_true_iff in Hpost. destruct Hpost as [_ Hpost].
  apply passes_fire; try assumption.
  rewrite Htr. exact Ht.
Qed.

Lemma bases_not_remapped r :
  In r LIGATURES -> translate_char REMAP (base r) = base r.
Proof.
  intros Hr. apply N.eqb_eq. revert r Hr.
  apply (proj1 (forallb_forall
                  (fun r => translate_char REMAP (base r) =? base r) LIGATURES)).
  vm_compute. reflexivity.
Qed.

End Ligatures.

(** C10: each of the twenty ligature rules has the two triggers U+12CB and
    U+12A0, and wherever its base glyph is followed by either trigger, the
    two characters are contracted to the labialized glyph of the rule, the
    same one for both triggers; the text around them is remapped on its
    own. *)
Theorem every_rule_fires_on_both_triggers :
  length CharacterRemapper.LIGATURES = 20%nat
  /\ forall r, In r CharacterRemapper.LIGATURES ->
       CharacterRemapper.triggers r = py "ዋአ"
       /\ forall t a b, In t (py "ዋአ") ->
            CharacterRemapper.remap (a ++ [CharacterRemapper.base r; t] ++ b)
            = CharacterRemapper.remap a ++ [CharacterRemapper.target r]
              ++ CharacterRemapper.remap b.
Proof.
  split; [reflexivity|]. intros r Hr.
  pose proof (proj1 (forallb_forall _ _) LIGATURES_ok r Hr) as Hok.
  apply rule_ok_spec in Hok. destruct Hok as (Htr & Hb & Htg).
  split; [exact Htr|]. intros t a b Ht.
  assert (Ht' : is_trigger t = true).
  { change (py "ዋአ") with [CharacterRemapper.glyph_wa; CharacterRemapper.glyph_a] in Ht.
    simpl in Ht. destruct Ht as [<-|[<-|[]]]; reflexivity. }
  unfold CharacterRemapper.remap. rewrite !translate_app.
  change (translate CharacterRemapper.REMAP [CharacterRemapper.base r; t])
    with [translate_char CharacterRemapper.REMAP (CharacterRemapper.base r);
          translate_char CharacterRemapper.REMAP t].
  assert (Hfb : translate_char CharacterRemapper.REMAP (CharacterRemapper.base r)
                = CharacterRemapper.base r).
  { apply bases_not_remapped, Hr. }
  assert (Hft : translate_char CharacterRemapper.REMAP t = t).
  { change (py "ዋአ") with [CharacterRemapper.glyph_wa; CharacterRemapper.glyph_a] in Ht.
    simpl in Ht. destruct Ht as [<-|[<-|[]]]; reflexivity. }
  rewrite Hfb, Hft. apply ligatures_fire; assumption.
Qed.

(** ** Decimal protection *)

Lemma ascii_digit_not_underscore c :
  ascii_digit c = true -> (c =? underscore) = false.
Proof.
  unfold ascii_digit, underscore. intros H. apply andb_true_iff in H.
  destruct H as [H1 H2]. apply N.leb_le in H1, H2. apply N.eqb_neq. lia.
Qed.

Lemma digits_no_underscore s :
  forallb ascii_digit s = true -> no_underscore s = true.
Proof.
  induction s as [|c s IH]; [reflexivity|]. simpl. intros H.
  apply andb_true_iff in H. destruct H as [Hc Hs].
  rewrite (ascii_digit_not_underscore _ Hc). simpl. apply IH, Hs.
Qed.

Lemma string_of_uint_digits d :
  forallb ascii_digit
    (map N_of_ascii (list_ascii_of_string (NilEmpty.string_of_uint d))) = true.
Proof. induction d; simpl; trivial. Qed.

Lemma str_of_nat_digits n : forallb ascii_digit (str_of_nat n) = true.
Proof. apply string_of_uint_digits. Qed.

Lemma map_N_of_ascii_inj a b :
  map N_of_ascii a = map N_of_ascii b -> a = b.
Proof.
  intros H. apply (f_equal (map ascii_of_N)) in H. rewrite !map_map in H.
  rewrite !(map_ext _ (fun x => x) ascii_N_embedding), !map_id in H. exact H.
Qed.

Lemma str_of_nat_inj a b : str_of_nat a = str_of_nat b -> a = b.
Proof.
  unfold str_of_nat. intros H. apply map_N_of_ascii_inj in H.
  apply (f_equal string_of_list_ascii) in H.
  rewrite !string_of_list_ascii_of_string in H.
  apply (f_equal NilEmpty.uint_of_string) in H. rewrite !NilEmpty.usu in H.
  inversion H. apply DecimalNat.Unsigned.to_uint_inj. assumption.
Qed.

Lemma str_of_nat_nonempty n : str_of_nat n <> [].
Proof.
  intros H. assert (E : str_of_nat n = map N_of_ascii []) by exact H.
  unfold str_of_nat in E. apply map_N_of_ascii_inj in E.
  apply (f_equal string_of_list_ascii) in E.
  rewrite string_of_list_ascii_of_string in E. simpl in E.
  apply (f_equal NilEmpty.uint_of_string) in E. rewrite NilEmpty.usu in E.
  simpl in E. inversion E as [E'].
  pose proof (DecimalNat.Unsigned.of_to n) as Hn. rewrite E' in Hn.
  simpl in Hn. subst n. discriminate E'.
Qed.

Lemma token_eq n :
  PunctuationNormalizer.token n
  = 95 :: 95 :: 68 :: 69 :: 67 :: 73 :: 77 :: 65 :: 76 :: 95
       :: str_of_nat n ++ [95; 95].
Proof. reflexivity. Qed.

Lemma sub_hit mt repl s m rest :
  ReSpec.splits mt -> mt s = Some (m, rest) ->
  Re.sub mt repl s = repl m ++ Re.sub mt repl rest.
Proof.
  intros Hmt E. destruct s as [|c t].
  - destruct (Hmt _ _ _ E) as [H Hm]. destruct m; [congruence | discriminate].
  - rewrite ReFacts.sub_cons by assumption. rewrite E. reflexivity.
Qed.

Lemma sub_miss mt repl c t :
  ReSpec.splits mt -> mt (c :: t) = None ->
  Re.sub mt repl (c :: t) = c :: Re.sub mt repl t.
Proof.
  intros Hmt E. rewrite ReFacts.sub_cons by assumption. rewrite E. reflexivity.
Qed.

Lemma skipn_length_app (a b : str) : skipn (length a) (a ++ b) = b.
Proof. induction a; simpl; auto. Qed.

Lemma starts_with_digits a : forall b x y,
  no_underscore a = true -> no_underscore b = true ->
  starts_with (a ++ underscore :: x) (b ++ underscore :: y) = true -> a = b.
Proof.
  unfold no_underscore.
  induction a as [|c a IH]; intros [|d b] x y Ha Hb H;
    cbn [starts_with app forallb] in *.
  - reflexivity.
  - apply andb_true_iff in Hb. destruct Hb as [Hd _].
    apply negb_true_iff in Hd. rewrite N.eqb_sym, Hd in H. discriminate.
  - apply andb_true_iff in Ha. destruct Ha as [Hc _].
    apply negb_true_iff in Hc. rewrite Hc in H. discriminate.
  - apply andb_true_iff in H, Ha, Hb.
    destruct H as [E H], Ha as [_ Ha], Hb as [_ Hb].
    apply N.eqb_eq in E. subst d. f_equal. eapply IH; eassumption.
Qed.

Section ReplaceToken.
Variable n : nat.
Variable v : str.

Let tk := PunctuationNormalizer.token n.

Lemma token_nonempty : tk <> [].
Proof. unfold tk. rewrite token_eq. discriminate. Qed.

Lemma replace_token s :
  replace tk v s = Re.sub (Re.literal tk) (fun _ => v) s.
Proof. unfold tk. rewrite token_eq. reflexivity. Qed.

Lemma replace_miss c s :
  starts_with tk (c :: s) = false -> replace tk v (c :: s) = c :: replace tk v s.
Proof.
  intros H. rewrite !replace_token.
  apply sub_miss; [apply ReFacts.splits_literal, token_nonempty|].
  unfold Re.literal. rewrite H. reflexivity.
Qed.

Lemma replace_other c s :
  (c =? underscore) = false -> replace tk v (c :: s) = c :: replace tk v s.
Proof.
  intros H. apply replace_miss. unfold tk. rewrite token_eq.
  cbn [starts_with]. rewrite N.eqb_sym. unfold underscore in H. rewrite H.
  reflexivity.
Qed.

Lemma replace_clean a s :
  no_underscore a = true -> replace tk v (a ++ s) = a ++ replace tk v s.
Proof.
  induction a as [|c a IH]; intros H; [reflexivity|].
  cbn [no_underscore forallb] in H. apply andb_true_iff in H.
  destruct H as [Hc Ha]. apply negb_true_iff in Hc. cbn [app].
  rewrite replace_other by exact Hc. f_equal. apply IH, Ha.
Qed.

Lemma replace_hit s : replace tk v (tk ++ s) = v ++ replace tk v s.
Proof.
  rewrite !replace_token.
  apply (sub_hit _ (fun _ => v) _ tk s);
    [apply ReFacts.splits_literal, token_nonempty|].
  unfold Re.literal. rewrite ReFacts.starts_with_app, skipn_length_app.
  reflexivity.
Qed.

End ReplaceToken.

Lemma str_of_nat_head n :
  exists d ds, str_of_nat n = d :: ds /\ (d =? underscore) = false.
Proof.
  pose proof (str_of_nat_digits n) as H. pose proof (str_of_nat_nonempty n) as Hne.
  destruct (str_of_nat n) as [|d ds]; [contradiction|].
  exists d, ds. split; [reflexivity|].
  cbn [forallb] in H. apply andb_true_iff in H.
  apply ascii_digit_not_underscore, H.
Qed.

Lemma replace_nil n v : replace (PunctuationNormalizer.token n) v [] = [].
Proof. rewrite replace_token. reflexivity. Qed.

Lemma no_underscore_app a b :
  no_underscore (a ++ b) = no_underscore a && no_underscore b.
Proof. apply forallb_app. Qed.

(** *** Occurrences of a word *)

Lemma has_sub_of_starts w s : starts_with w s = true -> has_sub w s = true.
Proof.
  destruct s as [|c t]; [exact (fun H => H)|]. cbn [has_sub]. intros ->.
  reflexivity.
Qed.

Lemma has_sub_app_r w a b : has_sub w b = true -> has_sub w (a ++ b) = true.
Proof.
  intros H. induction a as [|c a IH]; [exact H|]. cbn [app has_sub].
  rewrite IH. apply orb_true_r.
Qed.

Lemma starts_with_app_l w : forall a b,
  starts_with w a = true -> starts_with w (a ++ b) = true.
Proof.
  induction w as [|x w IH]; intros a b H; [destruct a; reflexivity|].
  destruct a as [|c a]; [discriminate|]. cbn [app starts_with] in *.
  apply andb_true_iff in H. destruct H as [-> H]. apply IH, H.
Qed.

Lemma has_sub_app_l w a b : has_sub w a = true -> has_sub w (a ++ b) = true.
Proof.
  induction a as [|c a IH]; intros H.
  - cbn [has_sub] in H. destruct w; [|discriminate].
    destruct b; reflexivity.
  - cbn [app has_sub] in *. apply orb_true_iff in H. destruct H as [H|H].
    + pose proof (starts_with_app_l _ (c :: a) b H) as K. cbn [app] in K.
      rewrite K. reflexivity.
    + rewrite (IH H). apply orb_true_r.
Qed.

Lemma free_app_r a b : reserved_free (a ++ b) = true -> reserved_free b = true.
Proof.
  unfold reserved_free. rewrite !negb_true_iff. intros H.
  destruct (has_sub reserved b) eqn:E; [|reflexivity].
  rewrite (has_sub_app_r _ a b E) in H. discriminate.
Qed.

Lemma free_tail c t : reserved_free (c :: t) = true -> reserved_free t = true.
Proof. apply (free_app_r [c] t). Qed.

Lemma free_not_starts s :
  reserved_free s = true -> starts_with reserved s = false.
Proof.
  unfold reserved_free. rewrite negb_true_iff. intros H.
  destruct (starts_with reserved s) eqn:E; [|reflexivity].
  rewrite (has_sub_of_starts _ _ E) in H. discriminate.
Qed.

(** *** Tokens in a protected text

    In the protected text of pieces whose text is free of the reserved word,
    a token starts only where a token was put. *)

Lemma token_split n :
  exists d x, (d =? underscore) = false
              /\ PunctuationNormalizer.token n = 95 :: 95 :: reserved ++ d :: x.
Proof.
  destruct (str_of_nat_head n) as (d & ds & Hd & Hdu).
  exists d, (ds ++ [95; 95]). split; [exact Hdu|].
  rewrite token_eq, Hd. reflexivity.
Qed.

Lemma word_runs_in_literals u : forall qs j d x,
  no_underscore u = true -> (d =? underscore) = false ->
  starts_with (u ++ underscore :: d :: x) (render j qs) = true ->
  starts_with (u ++ [underscore]) (flat qs) = true.
Proof.
  unfold no_underscore, underscore.
  induction u as [|a u IH]; intros [|[c|m] r] j d x Hu Hd H;
    cbn [app render flat starts_with forallb] in *; try discriminate.
  - apply andb_true_iff in H. destruct H as [-> _]. reflexivity.
  - rewrite token_eq in H. cbn [app starts_with] in H.
    rewrite Hd, andb_false_r in H. discriminate.
  - apply andb_true_iff in H, Hu. destruct H as [-> H], Hu as [_ Hu].
    apply (IH _ _ _ _ Hu Hd H).
  - apply andb_true_iff in Hu. destruct Hu as [Ha _].
    apply negb_true_iff in Ha. rewrite token_eq in H. cbn [app starts_with] in H.
    rewrite Ha in H. discriminate.
Qed.

Lemma reserved_not_rendered qs j d x :
  reserved_free (flat qs) = true -> (d =? underscore) = false ->
  starts_with (reserved ++ d :: x) (render j qs) = false.
Proof.
  intros Hf Hd. destruct (starts_with _ _) eqn:E; [|reflexivity].
  change (reserved ++ d :: x)
    with ([68; 69; 67; 73; 77; 65; 76] ++ underscore :: d :: x) in E.
  apply word_runs_in_literals in E; [| reflexivity | exact Hd].
  change ([68; 69; 67; 73; 77; 65; 76] ++ [underscore]) with reserved in E.
  rewrite (free_not_starts _ Hf) in E. discriminate.
Qed.

Lemma reserved_not_after_underscore qs j d x :
  reserved_free (flat qs) = true -> (d =? underscore) = false ->
  starts_with (95 :: reserved ++ d :: x) (render j qs) = false.
Proof.
  intros Hf Hd. destruct qs as [|[c|m] r]; [reflexivity | |].
  - cbn [render flat] in *.
    change (starts_with (95 :: reserved ++ d :: x) (c :: render j r))
      with ((95 =? c) && starts_with (reserved ++ d :: x) (render j r)).
    rewrite (reserved_not_rendered r j d x (free_tail _ _ Hf) Hd).
    apply andb_false_r.
  - cbn [render]. rewrite token_eq. reflexivity.
Qed.

Lemma no_token_at_literal n j c r :
  reserved_free (flat (Re.Lit c :: r)) = true ->
  starts_with (PunctuationNormalizer.token n) (render j (Re.Lit c :: r)) = false.
Proof.
  intros Hf. destruct (token_split n) as (d & x & Hd & ->).
  cbn [render flat] in *.
  change (starts_with (95 :: 95 :: reserved ++ d :: x) (c :: render j r))
    with ((95 =? c) && starts_with (95 :: reserved ++ d :: x) (render j r)).
  rewrite (reserved_not_after_underscore r j d x (free_tail _ _ Hf) Hd).
  apply andb_false_r.
Qed.

Lemma replace_skip_token n v j s :
  j <> n ->
  starts_with (PunctuationNormalizer.token n) (95 :: 95 :: s) = false ->
  starts_with (PunctuationNormalizer.token n) (95 :: s) = false ->
  replace (PunctuationNormalizer.token n) v (PunctuationNormalizer.token j ++ s)
  = PunctuationNormalizer.token j ++ replace (PunctuationNormalizer.token n) v s.
Proof.
  intros Hj H2 H1. rewrite (token_eq j). cbn [app].
  rewrite replace_miss.
  2:{ rewrite token_eq. cbn [starts_with].
      rewrite !N.eqb_refl. cbn [andb]. rewrite <- app_assoc.
      destruct (starts_with (str_of_nat n ++ [95; 95]) _) eqn:E; [|reflexivity].
      exfalso. apply Hj. apply str_of_nat_inj. symmetry.
      apply (starts_with_digits _ _ _ _
               (digits_no_underscore _ (str_of_nat_digits n))
               (digits_no_underscore _ (str_of_nat_digits j)) E). }
  f_equal.
  rewrite replace_miss by (rewrite token_eq; reflexivity). f_equal.
  do 7 (rewrite replace_other by reflexivity; f_equal).
  rewrite replace_miss.
  2:{ rewrite token_eq.
      destruct (str_of_nat_head j) as (d & ds & Hd & Hdu). rewrite Hd.
      unfold underscore in Hdu. cbn [app starts_with].
      rewrite (N.eqb_sym 95 d), Hdu, andb_false_r. reflexivity. }
  f_equal. rewrite <- !app_assoc.
  rewrite replace_clean by apply digits_no_underscore, str_of_nat_digits.
  f_equal. cbn [app].
  rewrite replace_miss by exact H2. f_equal.
  rewrite replace_miss by exact H1. reflexivity.
Qed.

Lemma render_no_token n v qs : forall j,
  reserved_free (flat qs) = true -> (n < j)%nat ->
  replace (PunctuationNormalizer.token n) v (render j qs) = render j qs.
Proof.
  induction qs as [|[c|m] r IH]; intros j Hf Hj.
  - apply replace_nil.
  - cbn [render].
    rewrite replace_miss by apply (no_token_at_literal n j c r Hf).
    f_equal. apply IH; [apply (free_tail _ _ Hf) | exact Hj].
  - cbn [flat] in Hf. apply free_app_r in Hf. cbn [render].
    destruct (token_split n) as (d & x & Hd & E).
    rewrite replace_skip_token; [| lia | |].
    + f_equal. apply IH; [exact Hf | lia].
    + rewrite E.
      change (starts_with (95 :: 95 :: reserved ++ d :: x) (95 :: 95 :: render (S j) r))
        with (starts_with (reserved ++ d :: x) (render (S j) r)).
      apply reserved_not_rendered; assumption.
    + rewrite E.
      change (starts_with (95 :: 95 :: reserved ++ d :: x) (95 :: render (S j) r))
        with (starts_with (95 :: reserved ++ d :: x) (render (S j) r)).
      apply reserved_not_after_underscore; assumption.
Qed.

Lemma render_lits pre : forall qs j,
  all_lit pre = true -> render j (pre ++ qs) = flat pre ++ render j qs.
Proof.
  induction pre as [|[c|m] pre IH]; intros qs j H; [reflexivity | | discriminate].
  cbn [app render flat]. f_equal. apply IH, H.
Qed.

Lemma flat_app ps qs : flat (ps ++ qs) = flat ps ++ flat qs.
Proof.
  induction ps as [|[c|m] ps IH]; [reflexivity | |]; cbn [app flat].
  - f_equal. exact IH.
  - rewrite IH, app_assoc. reflexivity.
Qed.

Lemma flat_lits m : flat (map Re.Lit m) = m.
Proof. induction m as [|c m IH]; [reflexivity|]. cbn [map flat]. f_equal. exact IH. Qed.

Lemma all_lit_lits m : all_lit (map Re.Lit m) = true.
Proof. induction m as [|c m IH]; [reflexivity | exact IH]. Qed.

Lemma replace_literals n v pre : forall qs j,
  all_lit pre = true -> reserved_free (flat (pre ++ qs)) = true ->
  replace (PunctuationNormalizer.token n) v (render j (pre ++ qs))
  = flat pre ++ replace (PunctuationNormalizer.token n) v (render j qs).
Proof.
  induction pre as [|[c|m] pre IH]; intros qs j H Hf; [reflexivity | | discriminate].
  change ((Re.Lit c :: pre) ++ qs) with (Re.Lit c :: pre ++ qs) in *.
  cbn [render].
  rewrite replace_miss by apply (no_token_at_literal n j c (pre ++ qs) Hf).
  cbn [flat app]. f_equal. apply IH; [exact H | apply (free_tail _ _ Hf)].
Qed.

(** The tokens are put back one after the other, and each [replace] finds
    its token exactly once. *)
Lemma restore_render qs : forall n pre,
  all_lit pre = true -> reserved_free (flat (pre ++ qs)) = true ->
  PunctuationNormalizer.restore (recorded n qs) (render n (pre ++ qs))
  = flat (pre ++ qs).
Proof.
  induction qs as [|[c|m] r IH]; intros n pre Hp Hf.
  - cbn [recorded PunctuationNormalizer.restore fold_left].
    rewrite render_lits by exact Hp. rewrite flat_app. reflexivity.
  - cbn [recorded].
    assert (E : pre ++ Re.Lit c :: r = (pre ++ [Re.Lit c]) ++ r)
      by (rewrite <- app_assoc; reflexivity).
    rewrite E in Hf |- *. apply IH; [|exact Hf].
    unfold all_lit in *. rewrite forallb_app, Hp. reflexivity.
  - cbn [recorded]. unfold PunctuationNormalizer.restore. cbn [fold_left fst snd].
    fold (PunctuationNormalizer.restore (recorded (S n) r)).
    rewrite replace_literals by assumption.
    cbn [render]. rewrite replace_hit.
    pose proof Hf as Hr. rewrite flat_app in Hr. apply free_app_r in Hr.
    cbn [flat] in Hr. apply free_app_r in Hr.
    rewrite render_no_token by (trivial; lia).
    assert (E : flat pre ++ m ++ render (S n) r
                = render (S n) ((pre ++ map Re.Lit m) ++ r)).
    { rewrite render_lits.
      - rewrite flat_app, flat_lits, <- app_assoc. reflexivity.
      - unfold all_lit in *. rewrite forallb_app, Hp. apply all_lit_lits. }
    rewrite E.
    assert (F : flat (pre ++ Re.Hit m :: r) = flat ((pre ++ map Re.Lit m) ++ r)).
    { rewrite !flat_app, flat_lits. cbn [flat]. rewrite <- app_assoc. reflexivity. }
    rewrite F in Hf |- *. apply IH; [|exact Hf].
    unfold all_lit in *. rewrite forallb_app, Hp. apply all_lit_lits.
Qed.

Lemma capture_spec ps : forall ds,
  PunctuationNormalizer.capture ps ds
  = (render (length ds) ps, ds ++ recorded (length ds) ps).
Proof.
  induction ps as [|[c|m] r IH]; intros ds.
  - cbn [PunctuationNormalizer.capture render recorded]. rewrite app_nil_r.
    reflexivity.
  - cbn [PunctuationNormalizer.capture render recorded]. rewrite IH. reflexivity.
  - cbn [PunctuationNormalizer.capture render recorded]. rewrite IH.
    rewrite length_app, Nat.add_1_r, <- app_assoc. reflexivity.
Qed.

(** *** The scan and its pieces *)

Lemma flat_finditer mt (Hmt : ReSpec.splits mt) s : flat (Re.finditer mt s) = s.
Proof.
  remember (length s) as n eqn:Hn. revert s Hn.
  induction n as [n IH] using lt_wf_ind. intros s Hn.
  destruct s as [|c t]; [reflexivity|].
  rewrite ReFacts.finditer_cons by assumption.
  destruct (mt (c :: t)) as [[m rest]|] eqn:E.
  - pose proof (ReFacts.splits_shorter _ _ _ _ Hmt E) as L.
    destruct (Hmt _ _ _ E) as [Hs _]. cbn [flat].
    rewrite (IH (length rest)); [symmetry; exact Hs | subst n; exact L | reflexivity].
  - cbn [flat]. f_equal. apply (IH (length t)); [subst n; simpl; lia | reflexivity].
Qed.

Lemma finditer_hits mt (Hmt : ReSpec.splits mt) (P : str -> Prop) :
  (forall s m rest, mt s = Some (m, rest) -> P m) ->
  forall s, on_hits P (Re.finditer mt s).
Proof.
  intros HP s. remember (length s) as n eqn:Hn. revert s Hn.
  induction n as [n IH] using lt_wf_ind. intros s Hn.
  destruct s as [|c t]; [constructor|].
  rewrite ReFacts.finditer_cons by assumption.
  destruct (mt (c :: t)) as [[m rest]|] eqn:E.
  - pose proof (ReFacts.splits_shorter _ _ _ _ Hmt E) as L.
    constructor; [exact (HP _ _ _ E)|].
    apply (IH (length rest)); [subst n; exact L | reflexivity].
  - constructor; [exact I|].
    apply (IH (length t)); [subst n; simpl; lia | reflexivity].
Qed.

Lemma decimal_match_shaped s m rest :
  Re.decimal s = Some (m, rest) -> decimal_shaped m.
Proof.
  unfold Re.decimal.
  destruct (span isdigit s) as [ds r1] eqn:E1.
  destruct ds as [|d ds]; [discriminate|].
  destruct r1 as [|c r2]; [discriminate|].
  destruct (c =? 0x2E) eqn:Ec; [|discriminate].
  destruct (span isdigit r2) as [es r3] eqn:E2.
  destruct es as [|e es]; [discriminate|].
  intros H. inversion H; subst. apply N.eqb_eq in Ec. subst c.
  exists (d :: ds), (e :: es). repeat split; try discriminate.
  - apply (ReFacts.span_all _ _ _ _ E1).
  - apply (ReFacts.span_all _ _ _ _ E2).
Qed.

Lemma decimal_pieces_shaped s : on_hits decimal_shaped (Re.finditer Re.decimal s).
Proof.
  apply finditer_hits; [apply ReFacts.splits_decimal | apply decimal_match_shaped].
Qed.

Lemma recorded_map_lit f ps : forall n, recorded n (map_lit f ps) = recorded n ps.
Proof.
  induction ps as [|[c|m] r IH]; intros n; [reflexivity | apply IH |].
  cbn [map_lit map recorded]. f_equal. apply IH.
Qed.

Lemma recorded_squash cls ps : forall n,
  recorded n (squash_pieces cls ps) = recorded n ps.
Proof.
  induction ps as [|[c|m] r IH]; intros n; [reflexivity | |].
  - cbn [squash_pieces recorded].
    destruct (cls c && starts_lit cls r); [apply IH | cbn [recorded]; apply IH].
  - cbn [squash_pieces recorded]. f_equal. apply IH.
Qed.

Lemma on_hits_map_lit P f ps : on_hits P ps -> on_hits P (map_lit f ps).
Proof.
  induction 1 as [|[c|m] r Hp Hr IH]; constructor; trivial.
Qed.

(** *** Character classes of the punctuation stage *)

Lemma ascii_digit_isdigit c : ascii_digit c = true -> isdigit c = true.
Proof.
  unfold ascii_digit. intros H. apply andb_true_iff in H. destruct H as [H1 H2].
  apply N.leb_le in H1, H2. unfold isdigit. apply existsb_exists.
  exists (0x30, 10). split; [left; reflexivity|].
  cbn [fst snd]. apply andb_true_iff. split; [apply N.leb_le | apply N.ltb_lt]; lia.
Qed.

Lemma punct_not_digit c : isdigit c = true -> punct c = false.
Proof.
  intros H. destruct (punct c) eqn:E; [|reflexivity].
  unfold PunctuationNormalizer.punct_all in E. apply existsb_exists in E.
  destruct E as [x [Hin Hx]]. apply N.eqb_eq in Hx. subst x.
  unfold PunctuationNormalizer.punct_all_chars in Hin. cbn [In] in Hin.
  repeat (destruct Hin as [<-|Hin]; [vm_compute in H; discriminate H|]).
  contradiction.
Qed.

Lemma digits_not_punct ds :
  forallb isdigit ds = true -> forallb (fun c => negb (punct c)) ds = true.
Proof.
  induction ds as [|d ds IH]; [reflexivity|]. cbn [forallb]. intros H.
  apply andb_true_iff in H. destruct H as [Hd Hs].
  rewrite (punct_not_digit _ Hd). apply IH, Hs.
Qed.

Lemma PT_key_not_digit c v : lookup PT c = Some v -> isdigit c = false.
Proof.
  intros H. apply lookup_In in H. apply (in_map fst) in H. cbn [fst] in H.
  unfold PunctuationNormalizer.PUNCT_TRANSLATION in H. cbn [map fst In] in H.
  repeat (destruct H as [<-|H]; [vm_compute; reflexivity|]). contradiction.
Qed.

Lemma PT_fixes_digit c : isdigit c = true -> translate_char PT c = c.
Proof.
  intros H. unfold translate_char. destruct (lookup PT c) as [v|] eqn:E; [|reflexivity].
  apply PT_key_not_digit in E. congruence.
Qed.

Lemma PT_fixes_digits ds : forallb isdigit ds = true -> translate PT ds = ds.
Proof.
  induction ds as [|d ds IH]; [reflexivity|]. cbn [forallb]. intros H.
  apply andb_true_iff in H. destruct H as [Hd Hs].
  unfold translate. cbn [map]. rewrite (PT_fixes_digit _ Hd). f_equal. apply IH, Hs.
Qed.

Lemma PT_value_in c v :
  lookup PT c = Some v -> In v [0x22; 0x27; 0x2C; 0x2E; 0x21; 0x3F; 0x3B; 0x3A].
Proof.
  intros H. apply lookup_In in H. apply (in_map snd) in H. cbn [snd] in H.
  unfold PunctuationNormalizer.PUNCT_TRANSLATION in H. cbn [map snd In] in H.
  cbn [In]. tauto.
Qed.

Lemma PT_keeps_underscore_out c :
  (c =? underscore) = false -> (translate_char PT c =? underscore) = false.
Proof.
  intros H. unfold translate_char. destruct (lookup PT c) as [v|] eqn:E; [|exact H].
  apply PT_value_in in E. cbn [In] in E.
  repeat (destruct E as [<-|E]; [reflexivity|]). contradiction.
Qed.

Lemma PT_fixes_token n :
  translate PT (PunctuationNormalizer.token n) = PunctuationNormalizer.token n.
Proof.
  rewrite token_eq. unfold translate. cbn [map].
  change (translate_char PT 95) with 95.
  change (translate_char PT 68) with 68. change (translate_char PT 69) with 69.
  change (translate_char PT 67) with 67. change (translate_char PT 73) with 73.
  change (translate_char PT 77) with 77. change (translate_char PT 65) with 65.
  change (translate_char PT 76) with 76.
  rewrite map_app. cbn [map]. change (translate_char PT 95) with 95.
  do 10 f_equal. f_equal.
  apply PT_fixes_digits. apply forallb_forall. intros c Hc.
  apply ascii_digit_isdigit.
  apply (proj1 (forallb_forall _ _) (str_of_nat_digits n) c Hc).
Qed.

Lemma token_not_punct n :
  forallb (fun c => negb (punct c)) (PunctuationNormalizer.token n) = true.
Proof.
  rewrite token_eq. cbn [forallb].
  change (punct 95) with false. change (punct 68) with false.
  change (punct 69) with false. change (punct 67) with false.
  change (punct 73) with false. change (punct 77) with false.
  change (punct 65) with false. change (punct 76) with false.
  cbn [negb andb]. rewrite forallb_app. cbn [forallb].
  change (punct 95) with false. cbn [negb andb]. rewrite andb_true_r.
  apply digits_not_punct. apply forallb_forall. intros c Hc.
  apply ascii_digit_isdigit.
  apply (proj1 (forallb_forall _ _) (str_of_nat_digits n) c Hc).
Qed.

Lemma squash_skip cls a s :
  forallb (fun c => negb (cls c)) a = true ->
  squash cls (a ++ s) = a ++ squash cls s.
Proof.
  induction a as [|c a IH]; [reflexivity|]. cbn [forallb]. intros H.
  apply andb_true_iff in H. destruct H as [Hc Ha].
  apply negb_true_iff in Hc. cbn [app squash]. rewrite Hc. cbn [andb].
  f_equal. apply IH, Ha.
Qed.

(** *** Translation and collapse commute with the protection *)

Lemma translate_render ps : forall n,
  translate PT (render n ps) = render n (map_lit (translate_char PT) ps).
Proof.
  induction ps as [|[c|m] r IH]; intros n; [reflexivity | |].
  - cbn [render map_lit map]. unfold translate. cbn [map]. f_equal. apply IH.
  - cbn [render map_lit map]. rewrite translate_app, PT_fixes_token.
    f_equal. apply IH.
Qed.

Lemma shaped_fixed_by_PT m : decimal_shaped m -> translate PT m = m.
Proof.
  intros (ds & es & -> & _ & _ & Hd & He).
  rewrite translate_app. change (0x2E :: es) with ([0x2E] ++ es).
  rewrite translate_app, (PT_fixes_digits ds), (PT_fixes_digits es) by assumption.
  reflexivity.
Qed.

Lemma translate_flat ps :
  on_hits decimal_shaped ps ->
  translate PT (flat ps) = flat (map_lit (translate_char PT) ps).
Proof.
  induction 1 as [|[c|m] r Hp Hr IH]; [reflexivity | |].
  - cbn [flat map_lit map]. unfold translate. cbn [map]. f_equal. exact IH.
  - cbn [flat map_lit map]. rewrite translate_app, shaped_fixed_by_PT by exact Hp.
    f_equal. exact IH.
Qed.

Lemma starts_render ps n : starts_in punct (render n ps) = starts_lit punct ps.
Proof.
  destruct ps as [|[c|m] r]; [reflexivity | reflexivity |].
  cbn [render]. rewrite token_eq. reflexivity.
Qed.

Lemma squash_render ps : forall n,
  squash punct (render n ps) = render n (squash_pieces punct ps).
Proof.
  induction ps as [|[c|m] r IH]; intros n; [reflexivity | |].
  - cbn [render squash squash_pieces]. rewrite starts_render.
    destruct (punct c && starts_lit punct r); [apply IH|].
    cbn [render]. f_equal. apply IH.
  - cbn [render squash_pieces]. rewrite squash_skip by apply token_not_punct.
    f_equal. apply IH.
Qed.

Lemma shaped_starts m s : decimal_shaped m -> starts_in punct (m ++ s) = false.
Proof.
  intros (ds & es & -> & Hds & _ & Hd & _).
  destruct ds as [|d ds]; [contradiction|]. cbn [app starts_in].
  cbn [forallb] in Hd. apply andb_true_iff in Hd. apply punct_not_digit, Hd.
Qed.

Lemma starts_flat ps :
  on_hits decimal_shaped ps -> starts_in punct (flat ps) = starts_lit punct ps.
Proof.
  intros H. destruct H as [|[c|m] r Hp Hr]; [reflexivity | reflexivity |].
  cbn [flat starts_lit]. apply shaped_starts, Hp.
Qed.

Lemma squash_shaped m s :
  decimal_shaped m -> squash punct (m ++ s) = m ++ squash punct s.
Proof.
  intros (ds & es & -> & _ & Hes & Hd & He).
  rewrite <- !app_assoc. rewrite squash_skip by apply digits_not_punct, Hd.
  f_equal. cbn [app squash].
  destruct es as [|e es]; [contradiction|].
  cbn [app starts_in]. pose proof He as He'.
  cbn [forallb] in He'. apply andb_true_iff in He'. destruct He' as [He1 _].
  rewrite (punct_not_digit _ He1), andb_false_r. f_equal.
  change (e :: es ++ s) with ((e :: es) ++ s).
  apply squash_skip, digits_not_punct, He.
Qed.

Lemma squash_flat ps :
  on_hits decimal_shaped ps ->
  squash punct (flat ps) = flat (squash_pieces punct ps).
Proof.
  induction 1 as [|[c|m] r Hp Hr IH]; [reflexivity | |].
  - cbn [flat squash squash_pieces]. rewrite starts_flat by exact Hr.
    destruct (punct c && starts_lit punct r); [exact IH|].
    cbn [flat]. f_equal. exact IH.
  - cbn [flat squash_pieces]. rewrite squash_shaped by exact Hp.
    f_equal. exact IH.
Qed.

(** *** White space *)

Section SqueezeWs.
Variable cls : char -> bool.

Lemma squeeze_ws_run m b :
  forallb cls m = true -> m <> [] -> starts_in cls b = false ->
  squeeze_ws cls (m ++ b) = 0x20 :: squeeze_ws cls b.
Proof.
  intros Hm Hne Hb. induction m as [|x [|y m] IH]; [contradiction | |].
  - cbn [forallb] in Hm. apply andb_true_iff in Hm. destruct Hm as [Hx _].
    cbn [app squeeze_ws]. rewrite Hx, Hb. reflexivity.
  - cbn [forallb] in Hm. apply andb_true_iff in Hm. destruct Hm as [Hx Hm].
    pose proof Hm as Hm'. cbn [forallb] in Hm'. apply andb_true_iff in Hm'.
    destruct Hm' as [Hy _].
    change ((x :: y :: m) ++ b) with (x :: (y :: m) ++ b).
    cbn [squeeze_ws]. rewrite Hx. cbn [app starts_in]. rewrite Hy.
    apply IH; [exact Hm | discriminate].
Qed.

Lemma sub_plus_squeeze s :
  Re.sub (Re.plus cls) (fun _ => [0x20]) s = squeeze_ws cls s.
Proof.
  remember (length s) as n eqn:Hn. revert s Hn.
  induction n as [n IH] using lt_wf_ind. intros s Hn.
  destruct s as [|c t]; [reflexivity|].
  rewrite ReFacts.sub_cons by auto with re.
  remember (Re.plus cls (c :: t)) as o eqn:Eo.
  unfold Re.plus in Eo. cbn [span] in Eo.
  destruct (cls c) eqn:Hc.
  - destruct (span cls t) as [a b] eqn:E.
    pose proof (ReFacts.span_app _ _ _ _ E) as Ht.
    pose proof (ReFacts.span_all _ _ _ _ E) as Ha.
    pose proof (ReFacts.span_stop _ _ _ _ E) as Hb.
    assert (Hs : starts_in cls b = false) by (destruct b; [reflexivity | exact Hb]).
    subst o t.
    rewrite (IH (length b)); [| subst n; simpl; rewrite length_app; lia | reflexivity].
    change (c :: a ++ b) with ((c :: a) ++ b).
    symmetry. apply squeeze_ws_run; [cbn [forallb]; rewrite Hc; exact Ha | discriminate | exact Hs].
  - subst o. cbn [squeeze_ws]. rewrite Hc. f_equal.
    apply (IH (length t)); [subst n; simpl; lia | reflexivity].
Qed.

End SqueezeWs.

Lemma squeeze_eq s :
  PunctuationNormalizer.squeeze s = strip (squeeze_ws isspace s).
Proof.
  unfold PunctuationNormalizer.squeeze. rewrite sub_plus_squeeze. reflexivity.
Qed.

(** *** Characters that survive the stage *)

Section Pointwise.
Variable P : char -> bool.

Lemma forallb_squash cls s : forallb P s = true -> forallb P (squash cls s) = true.
Proof.
  induction s as [|c t IH]; [reflexivity|]. cbn [forallb squash]. intros H.
  apply andb_true_iff in H. destruct H as [Hc Ht].
  destruct (cls c && starts_in cls t); [apply IH, Ht|].
  cbn [forallb]. rewrite Hc. apply IH, Ht.
Qed.

Lemma forallb_squeeze_ws cls s :
  P 0x20 = true -> forallb P s = true -> forallb P (squeeze_ws cls s) = true.
Proof.
  intros Hsp. induction s as [|c t IH]; [reflexivity|]. cbn [forallb squeeze_ws].
  intros H. apply andb_true_iff in H. destruct H as [Hc Ht].
  destruct (cls c); [destruct (starts_in cls t)|]; cbn [forallb];
    rewrite ?Hsp, ?Hc; apply IH, Ht.
Qed.

Lemma forallb_dropwhile p s : forallb P s = true -> forallb P (dropwhile p s) = true.
Proof.
  induction s as [|c t IH]; [reflexivity|]. cbn [dropwhile]. intros H.
  destruct (p c); [|exact H]. cbn [forallb] in H. apply andb_true_iff in H.
  apply IH, H.
Qed.

Lemma forallb_rev (s : str) : forallb P (rev s) = forallb P s.
Proof.
  induction s as [|c t IH]; [reflexivity|]. cbn [rev forallb].
  rewrite forallb_app, IH. cbn [forallb]. rewrite andb_true_r. apply andb_comm.
Qed.

Lemma forallb_strip s : forallb P s = true -> forallb P (strip s) = true.
Proof.
  intros H. unfold strip. rewrite forallb_rev. apply forallb_dropwhile.
  rewrite forallb_rev. apply forallb_dropwhile, H.
Qed.

End Pointwise.

(** ** Texts that the punctuation stage leaves alone *)

Section Runs.
Variable cls : char -> bool.

Lemma starts_squash s : starts_in cls (squash cls s) = starts_in cls s.
Proof.
  induction s as [|c t IH]; [reflexivity|]. cbn [squash].
  destruct (cls c) eqn:Hc; cbn [andb].
  - destruct (starts_in cls t) eqn:Ht.
    + rewrite IH. cbn [starts_in]. rewrite Hc. reflexivity.
    + cbn [starts_in]. reflexivity.
  - reflexivity.
Qed.

Lemma squash_no_adjacent s : no_adjacent cls (squash cls s) = true.
Proof.
  induction s as [|c t IH]; [reflexivity|]. cbn [squash].
  destruct (cls c && starts_in cls t) eqn:E; [exact IH|].
  cbn [no_adjacent]. rewrite starts_squash, E, IH. reflexivity.
Qed.

Lemma squash_fixed s : no_adjacent cls s = true -> squash cls s = s.
Proof.
  induction s as [|c t IH]; [reflexivity|]. cbn [no_adjacent squash].
  intros H. apply andb_true_iff in H. destruct H as [Hc Ht].
  apply negb_true_iff in Hc. rewrite Hc. f_equal. apply IH, Ht.
Qed.

Lemma no_adjacent_snoc a c :
  no_adjacent cls (a ++ [c])
  = no_adjacent cls a && negb (cls c && starts_in cls (rev a)).
Proof.
  induction a as [|x [|y a] IH].
  - cbn. rewrite !andb_false_r. reflexivity.
  - cbn. rewrite !andb_false_r, !andb_true_r. cbn.
    rewrite (andb_comm (cls x) (cls c)). reflexivity.
  - change ((x :: y :: a) ++ [c]) with (x :: (y :: a) ++ [c]).
    cbn [no_adjacent]. rewrite IH.
    change (starts_in cls ((y :: a) ++ [c])) with (cls y).
    change (starts_in cls (y :: a)) with (cls y).
    assert (E : starts_in cls (rev (x :: y :: a)) = starts_in cls (rev (y :: a))).
    { cbn [rev]. destruct (rev a ++ [y]) eqn:R; [|reflexivity].
      destruct (rev a); discriminate R. }
    rewrite E. cbn [no_adjacent starts_in]. rewrite <- !andb_assoc. reflexivity.
Qed.

Lemma no_adjacent_rev s : no_adjacent cls (rev s) = no_adjacent cls s.
Proof.
  induction s as [|c t IH]; [reflexivity|]. cbn [rev].
  rewrite no_adjacent_snoc, rev_involutive, IH. cbn [no_adjacent].
  apply andb_comm.
Qed.

Lemma no_adjacent_dropwhile p s :
  no_adjacent cls s = true -> no_adjacent cls (dropwhile p s) = true.
Proof.
  induction s as [|c t IH]; [reflexivity|]. cbn [dropwhile]. intros H.
  destruct (p c); [|exact H]. cbn [no_adjacent] in H.
  apply andb_true_iff in H. apply IH, H.
Qed.

Lemma no_adjacent_strip s :
  no_adjacent cls s = true -> no_adjacent cls (strip s) = true.
Proof.
  intros H. unfold strip. rewrite no_adjacent_rev. apply no_adjacent_dropwhile.
  rewrite no_adjacent_rev. apply no_adjacent_dropwhile, H.
Qed.

(** The squeeze of the class itself, when the plain space belongs to it. *)
Hypothesis cls_space : cls 0x20 = true.

Lemma starts_squeeze s : starts_in cls (squeeze_ws cls s) = starts_in cls s.
Proof.
  induction s as [|c t IH]; [reflexivity|]. cbn [squeeze_ws].
  destruct (cls c) eqn:Hc; [|cbn [starts_in]; reflexivity].
  destruct (starts_in cls t) eqn:Ht.
  - rewrite IH. cbn [starts_in]. rewrite Hc. reflexivity.
  - cbn [starts_in]. rewrite cls_space, Hc. reflexivity.
Qed.

Lemma squeeze_no_adjacent s : no_adjacent cls (squeeze_ws cls s) = true.
Proof.
  induction s as [|c t IH]; [reflexivity|]. cbn [squeeze_ws].
  destruct (cls c) eqn:Hc.
  - destruct (starts_in cls t) eqn:Ht; [exact IH|].
    cbn [no_adjacent]. rewrite starts_squeeze, Ht, andb_false_r, IH. reflexivity.
  - cbn [no_adjacent]. rewrite Hc, IH. reflexivity.
Qed.

Lemma squeeze_only_space s : only_space cls (squeeze_ws cls s) = true.
Proof.
  unfold only_space. induction s as [|c t IH]; [reflexivity|]. cbn [squeeze_ws].
  destruct (cls c) eqn:Hc.
  - destruct (starts_in cls t); [exact IH|].
    cbn [forallb]. rewrite IH, N.eqb_refl, orb_true_r. reflexivity.
  - cbn [forallb]. rewrite Hc, IH. reflexivity.
Qed.

Lemma squeeze_fixed s :
  no_adjacent cls s = true -> only_space cls s = true -> squeeze_ws cls s = s.
Proof.
  unfold only_space. induction s as [|c t IH]; [reflexivity|].
  cbn [no_adjacent forallb squeeze_ws]. intros H1 H2.
  apply andb_true_iff in H1, H2. destruct H1 as [Ha Hn], H2 as [Hc Ho].
  apply negb_true_iff in Ha.
  destruct (cls c) eqn:Ec.
  - cbn [andb] in Ha. rewrite Ha. cbn [negb orb] in Hc.
    apply N.eqb_eq in Hc. subst c. f_equal. apply IH; assumption.
  - f_equal. apply IH; assumption.
Qed.

End Runs.

Section Strip.
Variable p : char -> bool.

Lemma dropwhile_fixed s : starts_in p s = false -> dropwhile p s = s.
Proof. destruct s as [|c t]; [reflexivity|]. cbn. intros ->. reflexivity. Qed.

Lemma starts_dropwhile s : starts_in p (dropwhile p s) = false.
Proof.
  induction s as [|c t IH]; [reflexivity|]. cbn [dropwhile].
  destruct (p c) eqn:Hc; [exact IH | exact Hc].
Qed.

Lemma dropwhile_split s : exists sp, s = sp ++ dropwhile p s.
Proof.
  induction s as [|c t [sp IH]]; [exists []; reflexivity|]. cbn [dropwhile].
  destruct (p c); [|exists []; reflexivity].
  exists (c :: sp). cbn [app]. f_equal. exact IH.
Qed.

Lemma starts_app_l a b : starts_in p (a ++ b) = false -> starts_in p a = false.
Proof. destruct a; [reflexivity | exact (fun H => H)]. Qed.

End Strip.

Lemma strip_fixed s :
  starts_in isspace s = false -> starts_in isspace (rev s) = false ->
  strip s = s.
Proof.
  intros H1 H2. unfold strip. rewrite (dropwhile_fixed _ s H1).
  rewrite (dropwhile_fixed _ _ H2). apply rev_involutive.
Qed.

Lemma strip_starts s : starts_in isspace (strip s) = false.
Proof.
  unfold strip. set (u := dropwhile isspace s).
  destruct (dropwhile_split isspace (rev u)) as [sp E].
  set (v := dropwhile isspace (rev u)) in *.
  apply (f_equal (@rev _)) in E. rewrite rev_involutive, rev_app_distr in E.
  pose proof (starts_dropwhile isspace s) as Hu. fold u in Hu.
  rewrite E in Hu. apply (starts_app_l _ _ _ Hu).
Qed.

Lemma strip_ends s : starts_in isspace (rev (strip s)) = false.
Proof. unfold strip. rewrite rev_involutive. apply starts_dropwhile. Qed.

Lemma strip_strip s : strip (strip s) = strip s.
Proof. apply strip_fixed; [apply strip_starts | apply strip_ends]. Qed.

Lemma space_not_punct c : isspace c = true -> punct c = false.
Proof.
  intros H. destruct (punct c) eqn:E; [|reflexivity].
  unfold PunctuationNormalizer.punct_all in E. apply existsb_exists in E.
  destruct E as [x [Hin Hx]]. apply N.eqb_eq in Hx. subst x.
  unfold PunctuationNormalizer.punct_all_chars in Hin. cbn [In] in Hin.
  repeat (destruct Hin as [<-|Hin]; [vm_compute in H; discriminate H|]).
  contradiction.
Qed.

Lemma starts_punct_squeeze s :
  starts_in punct (squeeze_ws isspace s) = starts_in punct s.
Proof.
  induction s as [|c t IH]; [reflexivity|]. cbn [squeeze_ws].
  destruct (isspace c) eqn:Hc; [|reflexivity].
  cbn [starts_in]. rewrite (space_not_punct _ Hc).
  destruct (starts_in isspace t) eqn:Ht; [|reflexivity].
  rewrite IH. destruct t as [|d t]; [reflexivity|].
  cbn [starts_in] in Ht |- *. apply space_not_punct, Ht.
Qed.

Lemma no_adjacent_punct_squeeze s :
  no_adjacent punct s = true ->
  no_adjacent punct (squeeze_ws isspace s) = true.
Proof.
  induction s as [|c t IH]; [reflexivity|]. cbn [no_adjacent squeeze_ws].
  intros H. apply andb_true_iff in H. destruct H as [Hc Ht].
  destruct (isspace c) eqn:Ec.
  - destruct (starts_in isspace t); [apply IH, Ht|].
    cbn [no_adjacent]. change (punct 0x20) with false. cbn [andb negb].
    apply IH, Ht.
  - cbn [no_adjacent]. rewrite starts_punct_squeeze, Hc. apply IH, Ht.
Qed.

Lemma PT_free_fixed s : PT_free s = true -> translate PT s = s.
Proof.
  unfold PT_free, translate. induction s as [|c t IH]; [reflexivity|].
  cbn [forallb map]. intros H. apply andb_true_iff in H. destruct H as [Hc Ht].
  apply N.eqb_eq in Hc. rewrite Hc. f_equal. apply IH, Ht.
Qed.

Lemma PT_free_translate x : PT_free (translate PT x) = true.
Proof.
  unfold PT_free, translate. induction x as [|c t IH]; [reflexivity|].
  cbn [map forallb]. rewrite IH, andb_true_r. apply N.eqb_eq.
  unfold translate_char at 2 3. destruct (lookup PT c) as [v|] eqn:E.
  - apply PT_value_in in E. cbn [In] in E.
    repeat (destruct E as [<-|E]; [reflexivity|]). contradiction.
  - unfold translate_char. rewrite E. reflexivity.
Qed.

(** The pipeline without the protection of decimals is idempotent. *)
Lemma plain_pipeline_idempotent x :
  let f := fun s => PunctuationNormalizer.squeeze (squash punct (translate PT s)) in
  f (f x) = f x.
Proof.
  cbv beta zeta. rewrite !squeeze_eq.
  set (z := squash punct (translate PT x)).
  set (y := strip (squeeze_ws isspace z)).
  assert (Hpt : PT_free y = true).
  { unfold y, PT_free. apply forallb_strip, forallb_squeeze_ws; [reflexivity|].
    apply forallb_squash. apply PT_free_translate. }
  assert (Hna : no_adjacent punct y = true).
  { unfold y. apply no_adjacent_strip, no_adjacent_punct_squeeze.
    apply squash_no_adjacent. }
  assert (Hsp : no_adjacent isspace y = true).
  { unfold y. apply no_adjacent_strip, squeeze_no_adjacent; reflexivity. }
  assert (Hos : only_space isspace y = true).
  { unfold y, only_space. apply forallb_strip. apply squeeze_only_space;
    reflexivity. }
  rewrite (PT_free_fixed _ Hpt), (squash_fixed _ _ Hna).
  rewrite (squeeze_fixed _ _ Hsp Hos).
  unfold y. apply strip_strip.
Qed.

(** ** The reserved word through the punctuation stage *)

Section WordSurvives.
Variable cls : char -> bool.
Variable w : str.
Hypothesis w_outside : forallb (fun c => negb (cls c)) w = true.

Lemma starts_with_squash_reflects : forall u s,
  forallb (fun c => negb (cls c)) u = true ->
  starts_with u (squash cls s) = true -> starts_with u s = true.
Proof.
  induction u as [|b u IH]; intros s Hu H; [destruct s; reflexivity|].
  cbn [forallb] in Hu. apply andb_true_iff in Hu. destruct Hu as [Hb Hu].
  apply negb_true_iff in Hb.
  destruct s as [|d t]; [discriminate H|]. cbn [squash] in H.
  destruct (cls d && starts_in cls t) eqn:E.
  - apply andb_true_iff in E. destruct E as [_ E].
    rewrite <- (starts_squash cls t) in E.
    destruct (squash cls t) as [|e r]; [discriminate|].
    cbn [starts_with starts_in] in H, E. apply andb_true_iff in H.
    destruct H as [H _]. apply N.eqb_eq in H. subst e. congruence.
  - cbn [starts_with] in H |- *. apply andb_true_iff in H. destruct H as [-> H].
    apply (IH _ Hu H).
Qed.

Lemma has_sub_squash s : has_sub w (squash cls s) = true -> has_sub w s = true.
Proof.
  induction s as [|c t IH]; [exact (fun H => H)|]. cbn [squash].
  destruct (cls c && starts_in cls t).
  - intros H. cbn [has_sub]. rewrite (IH H). apply orb_true_r.
  - cbn [has_sub]. intros H. apply orb_true_iff in H. destruct H as [H|H].
    + apply orb_true_iff. left.
      destruct w as [|b u]; [reflexivity|].
      cbn [forallb] in w_outside. apply andb_true_iff in w_outside.
      destruct w_outside as [_ Hu].
      cbn [starts_with] in H |- *.
      apply andb_true_iff in H. destruct H as [-> H].
      apply (starts_with_squash_reflects _ _ Hu H).
    + rewrite (IH H). apply orb_true_r.
Qed.

Hypothesis cls_space : cls 0x20 = true.

Lemma starts_with_squeeze_reflects : forall u s,
  forallb (fun c => negb (cls c)) u = true ->
  starts_with u (squeeze_ws cls s) = true -> starts_with u s = true.
Proof.
  induction u as [|b u IH]; intros s Hu H; [destruct s; reflexivity|].
  cbn [forallb] in Hu. apply andb_true_iff in Hu. destruct Hu as [Hb Hu].
  apply negb_true_iff in Hb.
  destruct s as [|d t]; [discriminate H|].
  pose proof (starts_squeeze cls cls_space (d :: t)) as Hs.
  cbn [squeeze_ws] in H, Hs. cbn [starts_in] in Hs.
  destruct (cls d) eqn:Ed.
  - destruct (if starts_in cls t then squeeze_ws cls t else 0x20 :: squeeze_ws cls t)
      as [|e r]; [discriminate|].
    cbn [starts_with starts_in] in H, Hs. apply andb_true_iff in H.
    destruct H as [H _]. apply N.eqb_eq in H. subst e. congruence.
  - cbn [starts_with] in H |- *. apply andb_true_iff in H. destruct H as [-> H].
    apply (IH _ Hu H).
Qed.

Lemma has_sub_squeeze s :
  w <> [] -> has_sub w (squeeze_ws cls s) = true -> has_sub w s = true.
Proof.
  intros Hw. induction s as [|c t IH]; [exact (fun H => H)|]. cbn [squeeze_ws].
  destruct w as [|b u] eqn:Ew; [contradiction|].
  cbn [forallb] in w_outside. apply andb_true_iff in w_outside.
  destruct w_outside as [Hb Hu]. apply negb_true_iff in Hb.
  destruct (cls c) eqn:Ec.
  - destruct (starts_in cls t).
    + intros H. cbn [has_sub]. rewrite (IH H). apply orb_true_r.
    + cbn [has_sub]. intros H. apply orb_true_iff in H. destruct H as [H|H].
      * cbn [starts_with] in H. apply andb_true_iff in H. destruct H as [H _].
        apply N.eqb_eq in H. subst b. congruence.
      * rewrite (IH H). apply orb_true_r.
  - cbn [has_sub]. intros H. apply orb_true_iff in H. destruct H as [H|H].
    + apply orb_true_iff. left. cbn [starts_with] in H |- *.
      apply andb_true_iff in H. destruct H as [-> H].
      apply (starts_with_squeeze_reflects _ _ Hu H).
    + rewrite (IH H). apply orb_true_r.
Qed.

End WordSurvives.

Lemma strip_infix s : exists a b, s = a ++ strip s ++ b.
Proof.
  unfold strip. destruct (dropwhile_split isspace s) as [a Ea].
  set (u := dropwhile isspace s) in *.
  destruct (dropwhile_split isspace (rev u)) as [b Eb].
  set (v := dropwhile isspace (rev u)) in *.
  apply (f_equal (@rev _)) in Eb. rewrite rev_involutive, rev_app_distr in Eb.
  exists a, (rev b). rewrite <- Eb. exact Ea.
Qed.

Lemma has_sub_strip w s : has_sub w (strip s) = true -> has_sub w s = true.
Proof.
  intros H. destruct (strip_infix s) as (a & b & E). rewrite E.
  apply has_sub_app_r, has_sub_app_l, H.
Qed.

(** The table neither produces nor consumes the characters of the reserved
    word. *)
Lemma PT_inert a c :
  lookup PT a = None ->
  existsb (N.eqb a) [0x22; 0x27; 0x2C; 0x2E; 0x21; 0x3F; 0x3B; 0x3A] = false ->
  (a =? translate_char PT c) = (a =? c).
Proof.
  intros Hk Hv. unfold translate_char. destruct (lookup PT c) as [v|] eqn:E; [|reflexivity].
  assert (Hac : (a =? c) = false).
  { apply N.eqb_neq. intros ->. congruence. }
  rewrite Hac. apply PT_value_in in E.
  destruct (a =? v) eqn:Eav; [|reflexivity].
  apply N.eqb_eq in Eav. subst v.
  assert (K : existsb (N.eqb a) [0x22; 0x27; 0x2C; 0x2E; 0x21; 0x3F; 0x3B; 0x3A] = true).
  { apply existsb_exists. exists a. split; [exact E | apply N.eqb_refl]. }
  congruence.
Qed.

Lemma starts_with_translate u : forall s,
  forallb (fun a =>
             match lookup PT a with None => true | Some _ => false end
             && negb (existsb (N.eqb a) [0x22; 0x27; 0x2C; 0x2E; 0x21; 0x3F; 0x3B; 0x3A]))
          u = true ->
  starts_with u (translate PT s) = starts_with u s.
Proof.
  induction u as [|a u IH]; intros s Hu; [destruct s; reflexivity|].
  destruct s as [|c t]; [reflexivity|].
  cbn [forallb] in Hu. apply andb_true_iff in Hu. destruct Hu as [Ha Hu].
  apply andb_true_iff in Ha. destruct Ha as [Hk Hv].
  apply negb_true_iff in Hv.
  unfold translate. cbn [map starts_with]. fold (translate PT t).
  rewrite IH by exact Hu. f_equal. apply PT_inert; [|exact Hv].
  destruct (lookup PT a); [discriminate | reflexivity].
Qed.

Lemma free_translate x : reserved_free (translate PT x) = reserved_free x.
Proof.
  unfold reserved_free. f_equal.
  induction x as [|c t IH]; [reflexivity|].
  change (translate PT (c :: t)) with (translate_char PT c :: translate PT t).
  cbn [has_sub]. rewrite IH. f_equal.
  apply (starts_with_translate reserved (c :: t)). reflexivity.
Qed.

Lemma free_squash s :
  reserved_free s = true -> reserved_free (squash punct s) = true.
Proof.
  unfold reserved_free. rewrite !negb_true_iff. intros H.
  destruct (has_sub reserved (squash punct s)) eqn:E; [|reflexivity].
  apply has_sub_squash in E; [congruence | reflexivity].
Qed.

Lemma free_squeeze s :
  reserved_free s = true ->
  reserved_free (PunctuationNormalizer.squeeze s) = true.
Proof.
  unfold reserved_free. rewrite !negb_true_iff, squeeze_eq. intros H.
  destruct (has_sub reserved (strip _)) eqn:E; [|reflexivity].
  apply has_sub_strip, has_sub_squeeze in E;
    [congruence | reflexivity | reflexivity | discriminate].
Qed.

(** On a text free of the reserved word the protection of decimals is
    transparent: the stage translates the marks, collapses the repeated ones
    and squeezes the white space, and every token is put back where it was
    taken. *)
Lemma normalize_transparent x :
  reserved_free x = true ->
  PunctuationNormalizer.normalize x
  = PunctuationNormalizer.squeeze (squash punct (translate PT x)).
Proof.
  intros Hx. unfold PunctuationNormalizer.normalize, PunctuationNormalizer.protect.
  rewrite capture_spec. cbn [length app].
  set (ps := Re.finditer Re.decimal x).
  assert (Hflat : flat ps = x) by apply flat_finditer, ReFacts.splits_decimal.
  assert (Hsh : on_hits decimal_shaped ps) by apply decimal_pieces_shaped.
  rewrite translate_render, collapse_squash, squash_render.
  set (qs := squash_pieces punct (map_lit (translate_char PT) ps)).
  assert (Hq : flat qs = squash punct (translate PT x)).
  { unfold qs. rewrite <- squash_flat by apply on_hits_map_lit, Hsh.
    rewrite <- translate_flat by exact Hsh. rewrite Hflat. reflexivity. }
  assert (Hrec : recorded 0 ps = recorded 0 qs).
  { unfold qs. rewrite recorded_squash, recorded_map_lit. reflexivity. }
  rewrite Hrec.
  pose proof (restore_render qs 0 [] eq_refl) as R. cbn [app] in R.
  rewrite R; [rewrite Hq; reflexivity|].
  rewrite Hq. apply free_squash. rewrite free_translate. exact Hx.
Qed.

(** C1 (amended): on an input [a ++ run ++ b] that does not contain the
    reserved word [DECIMAL_], where after the table pass [run] is a run of
    two or more marks of the class [?!.,;:] plus the Ethiopic marks,
    delimited on both sides by the ends of the text or by characters
    outside the class, [apply] replaces the run by a single occurrence of
    its LAST mark, as it stands after the table pass (group 1 of the
    pattern holds the last repetition); the text before and after the run
    is collapsed on its own, and the white space of the whole is squeezed
    at the end. *)
Theorem collapse_keeps_last_mark data a run b :
  _extract_text data = a ++ run ++ b ->
  reserved_free (_extract_text data) = true ->
  forallb PunctuationNormalizer.punct_all
          (translate PunctuationNormalizer.PUNCT_TRANSLATION run) = true ->
  (2 <= length run)%nat ->
  ends_outside PunctuationNormalizer.punct_all
               (translate PunctuationNormalizer.PUNCT_TRANSLATION a) ->
  starts_in PunctuationNormalizer.punct_all
            (translate PunctuationNormalizer.PUNCT_TRANSLATION b) = false ->
  text (PunctuationNormalizer.apply data)
  = PunctuationNormalizer.squeeze
      (PunctuationNormalizer.collapse
         (translate PunctuationNormalizer.PUNCT_TRANSLATION a)
       ++ [last (translate PunctuationNormalizer.PUNCT_TRANSLATION run) 0]
       ++ PunctuationNormalizer.collapse
            (translate PunctuationNormalizer.PUNCT_TRANSLATION b)).
Proof.
  intros Hx Hfree Hrun Hlen Ha Hb.
  unfold PunctuationNormalizer.apply. cbn [text].
  rewrite (normalize_transparent _ Hfree), <- collapse_squash.
  rewrite Hx, !translate_app. f_equal.
  apply collapse_run; try assumption.
  unfold translate. rewrite length_map. exact Hlen.
Qed.

Lemma collapse_keeps_last_mark_witness :
  text (PunctuationNormalizer.apply
          (RawText ([0x4F; 0x4B] ++ [0x3F; 0x21; 0xFF1F] ++ [0x20; 0x31; 0x2E; 0x35])))
  = PunctuationNormalizer.squeeze
      (PunctuationNormalizer.collapse
         (translate PunctuationNormalizer.PUNCT_TRANSLATION [0x4F; 0x4B])
       ++ [last (translate PunctuationNormalizer.PUNCT_TRANSLATION
                   [0x3F; 0x21; 0xFF1F]) 0]
       ++ PunctuationNormalizer.collapse
            (translate PunctuationNormalizer.PUNCT_TRANSLATION
               [0x20; 0x31; 0x2E; 0x35])).
Proof.
  apply (collapse_keeps_last_mark
           (RawText ([0x4F; 0x4B] ++ [0x3F; 0x21; 0xFF1F] ++ [0x20; 0x31; 0x2E; 0x35]))
           [0x4F; 0x4B] [0x3F; 0x21; 0xFF1F] [0x20; 0x31; 0x2E; 0x35]).
  - reflexivity.
  - vm_compute. reflexivity.
  - vm_compute. reflexivity.
  - vm_compute. lia.
  - vm_compute. reflexivity.
  - vm_compute. reflexivity.
Defined.

Lemma normalize_stays_free x :
  reserved_free x = true ->
  reserved_free (PunctuationNormalizer.normalize x) = true.
Proof.
  intros Hx. rewrite normalize_transparent by exact Hx.
  apply free_squeeze, free_squash. rewrite free_translate. exact Hx.
Qed.

Lemma normalize_idempotent_when_free x :
  reserved_free x = true ->
  PunctuationNormalizer.normalize (PunctuationNormalizer.normalize x)
  = PunctuationNormalizer.normalize x.
Proof.
  intros Hx.
  rewrite (normalize_transparent (PunctuationNormalizer.normalize x))
    by apply normalize_stays_free, Hx.
  rewrite normalize_transparent by exact Hx.
  apply plain_pipeline_idempotent.
Qed.

Lemma placeholder_has_reserved s :
  has_placeholder s = true -> has_sub reserved s = true.
Proof.
  induction s as [|c t IH]; [discriminate|]. cbn [has_placeholder].
  intros H. apply orb_true_iff in H. destruct H as [H|H].
  - unfold placeholder_here in H. apply andb_true_iff in H. destruct H as [H _].
    change (py "__DECIMAL_") with (95 :: 95 :: reserved) in H.
    destruct t as [|c2 t2]; [cbn in H; rewrite andb_false_r in H; discriminate|].
    change (starts_with (95 :: 95 :: reserved) (c :: c2 :: t2))
      with ((95 =? c) && ((95 =? c2) && starts_with reserved t2)) in H.
    apply andb_true_iff in H. destruct H as [_ H].
    apply andb_true_iff in H. destruct H as [_ H].
    apply (has_sub_app_r _ [c; c2]), has_sub_of_starts, H.
  - cbn [has_sub]. rewrite (IH H). apply orb_true_r.
Qed.

(** C5 (as stated): an input with a decimal literal whose output has a
    placeholder; the input itself has no placeholder, the output gets one
    from a token that was put back at the wrong place. *)
Lemma placeholder_in_output :
  has_decimal (py "__DECIMAL_0_1.5DECIMAL_7__") = true
  /\ has_placeholder (py "__DECIMAL_0_1.5DECIMAL_7__") = false
  /\ text (PunctuationNormalizer.apply (RawText (py "__DECIMAL_0_1.5DECIMAL_7__")))
     = py "1.5_DECIMAL_0__DECIMAL_7__"
  /\ has_placeholder
       (text (PunctuationNormalizer.apply (RawText (py "__DECIMAL_0_1.5DECIMAL_7__"))))
     = true.
Proof. repeat split; vm_compute; reflexivity. Qed.

(** C5 (amended): for every input text that does not contain the reserved
    word [DECIMAL_], with or without decimal literals, the text returned by
    the punctuation stage contains no placeholder [__DECIMAL_<n>__] (and
    not even the word [DECIMAL_]): every token is put back before the stage
    returns. *)
Theorem no_placeholder_without_reserved_word data :
  reserved_free (_extract_text data) = true ->
  has_placeholder (text (PunctuationNormalizer.apply data)) = false
  /\ reserved_free (text (PunctuationNormalizer.apply data)) = true.
Proof.
  intros H. unfold PunctuationNormalizer.apply. cbn [text].
  pose proof (normalize_stays_free _ H) as Hn.
  split; [|exact Hn].
  destruct (has_placeholder _) eqn:E; [|reflexivity].
  apply placeholder_has_reserved in E. unfold reserved_free in Hn.
  rewrite E in Hn. discriminate.
Qed.

Lemma no_placeholder_without_reserved_word_witness :
  has_placeholder (text (PunctuationNormalizer.apply
                           (RawText (py "Pay 8.5%, or 12.75 .. now_!!")))) = false
  /\ reserved_free (text (PunctuationNormalizer.apply
                             (RawText (py "Pay 8.5%, or 12.75 .. now_!!")))) = true.
Proof.
  apply (no_placeholder_without_reserved_word
           (RawText (py "Pay 8.5%, or 12.75 .. now_!!"))).
  vm_compute. reflexivity.
Defined.

(** ** A second pass of the remapper *)

Section SecondPass.
Import CharacterRemapper.

Lemma pair_free_tail r c t : pair_free r (c :: t) = true -> pair_free r t = true.
Proof. cbn [pair_free]. intros H. apply andb_true_iff in H. apply H. Qed.

Lemma contract_fixed r s : pair_free r s = true -> contract s r = s.
Proof.
  induction s as [|c [|d s] IH]; intros H; [reflexivity | reflexivity |].
  rewrite contract_cons2.
  pose proof (pair_free_tail _ _ _ H) as Ht.
  cbn [pair_free] in H. apply andb_true_iff in H. destruct H as [H _].
  apply negb_true_iff in H. unfold starts_in_list in H. cbn [starts_in] in H.
  rewrite H. f_equal. apply IH, Ht.
Qed.

(** What a pass puts at the start of a text: the old first character or
    the target of the rule. *)
Lemma starts_contract_gen q r v :
  q (target r) = false ->
  starts_in q v = false -> starts_in q (contract v r) = false.
Proof.
  intros Ht Hv. destruct v as [|c [|d v]]; [reflexivity | exact Hv |].
  rewrite contract_cons2.
  destruct ((c =? base r) && existsb (N.eqb d) (triggers r)); [exact Ht | exact Hv].
Qed.

Lemma contract_keeps_pair_free r r' s :
  starts_in_list (triggers r') [target r] = false ->
  (target r =? base r') = false ->
  pair_free r' s = true -> pair_free r' (contract s r) = true.
Proof.
  intros Htr Htb. remember (length s) as n eqn:Hn. revert s Hn.
  induction n as [n IH] using lt_wf_ind. intros s Hn H.
  destruct s as [|c [|d s]]; [reflexivity | exact H |].
  rewrite contract_cons2.
  pose proof (pair_free_tail _ _ _ H) as H1.
  pose proof (pair_free_tail _ _ _ H1) as H2.
  destruct ((c =? base r) && existsb (N.eqb d) (triggers r)).
  - cbn [pair_free]. rewrite Htb. cbn [andb negb].
    apply (IH (length s)); [subst n; simpl; lia | reflexivity | exact H2].
  - cbn [pair_free]. apply andb_true_iff. split.
    + cbn [pair_free] in H. apply andb_true_iff in H. destruct H as [H _].
      apply negb_true_iff in H. apply negb_true_iff.
      destruct (c =? base r'); [|reflexivity]. cbn [andb] in H |- *.
      unfold starts_in_list in *. apply starts_contract_gen; assumption.
    + apply (IH (length (d :: s))); [subst n; simpl; lia | reflexivity | exact H1].
Qed.

Lemma contract_makes_pair_free r s :
  starts_in_list (triggers r) [target r] = false ->
  (target r =? base r) = false ->
  pair_free r (contract s r) = true.
Proof.
  intros Htr Htb. remember (length s) as n eqn:Hn. revert s Hn.
  induction n as [n IH] using lt_wf_ind. intros s Hn.
  destruct s as [|c [|d s]]; [reflexivity | |].
  - rewrite contract_one. cbn [pair_free]. unfold starts_in_list. cbn [starts_in].
    rewrite andb_false_r. reflexivity.
  - rewrite contract_cons2.
    destruct ((c =? base r) && existsb (N.eqb d) (triggers r)) eqn:E.
    + cbn [pair_free]. rewrite Htb. cbn [andb negb].
      apply (IH (length s)); [subst n; simpl; lia | reflexivity].
    + cbn [pair_free]. apply andb_true_iff. split.
      * apply negb_true_iff.
        destruct (c =? base r); [|reflexivity]. cbn [andb] in E |- *.
        unfold starts_in_list in *. apply starts_contract_gen; assumption.
      * apply (IH (length (d :: s))); [subst n; simpl; lia | reflexivity].
Qed.

Lemma target_not_trigger r r' :
  In r LIGATURES -> In r' LIGATURES ->
  starts_in_list (triggers r') [target r] = false.
Proof.
  intros Hr Hr'.
  pose proof (proj1 (forallb_forall _ _) LIGATURES_ok r Hr) as H.
  pose proof (proj1 (forallb_forall _ _) LIGATURES_ok r' Hr') as H'.
  apply rule_ok_spec in H, H'. destruct H as (_ & _ & Ht), H' as (-> & _).
  exact Ht.
Qed.

Lemma target_not_base r r' :
  In r LIGATURES -> In r' LIGATURES -> (target r =? base r') = false.
Proof.
  intros Hr Hr'. pose proof (targets_not_bases r Hr) as H.
  unfold not_base_in in H.
  apply negb_true_iff. apply (proj1 (forallb_forall _ _) H r' Hr').
Qed.

(** After the passes of [rs], no rule that is done has a pair left. *)
Lemma passes_pair_free rs : forall done s,
  incl (done ++ rs) LIGATURES ->
  (forall r, In r done -> pair_free r s = true) ->
  forall r, In r (done ++ rs) -> pair_free r (fold_left contract rs s) = true.
Proof.
  induction rs as [|r0 rs IH]; intros done s Hincl Hdone r Hr.
  - rewrite app_nil_r in Hr. apply Hdone, Hr.
  - cbn [fold_left].
    assert (E : done ++ r0 :: rs = (done ++ [r0]) ++ rs)
      by (rewrite <- app_assoc; reflexivity).
    rewrite E in Hincl, Hr.
    assert (H0 : In r0 LIGATURES).
    { apply Hincl. apply in_or_app. left. apply in_or_app. right. now left. }
    apply (IH (done ++ [r0])); [exact Hincl | | exact Hr].
    intros r1 Hr1. apply in_app_or in Hr1. destruct Hr1 as [Hr1|[<-|[]]].
    + assert (H1 : In r1 LIGATURES).
      { apply Hincl. apply in_or_app. left. apply in_or_app. now left. }
      apply contract_keeps_pair_free;
        [apply target_not_trigger | apply target_not_base | apply Hdone]; assumption.
    + apply contract_makes_pair_free;
        [apply target_not_trigger | apply target_not_base]; assumption.
Qed.

Lemma passes_fixed rs : forall s,
  (forall r, In r rs -> pair_free r s = true) -> fold_left contract rs s = s.
Proof.
  induction rs as [|r0 rs IH]; intros s H; [reflexivity|].
  cbn [fold_left]. rewrite contract_fixed by (apply H; now left).
  apply IH. intros r Hr. apply H. now right.
Qed.

Lemma ligatures_pair_free s r :
  In r LIGATURES -> pair_free r (ligatures s) = true.
Proof.
  intros Hr. unfold ligatures.
  apply (passes_pair_free LIGATURES [] s); [apply incl_refl | intros ? [] | exact Hr].
Qed.

Lemma ligatures_idempotent s : ligatures (ligatures s) = ligatures s.
Proof.
  unfold ligatures at 1. apply passes_fixed. intros r Hr.
  apply ligatures_pair_free, Hr.
Qed.

(** The characters of the result of a pass. *)
Lemma contract_chars r s c :
  In c (contract s r) -> In c s \/ c = target r.
Proof.
  remember (length s) as n eqn:Hn. revert s Hn.
  induction n as [n IH] using lt_wf_ind. intros s Hn.
  destruct s as [|x [|y s]]; [intros [] | intros H; left; exact H |].
  rewrite contract_cons2.
  destruct ((x =? base r) && existsb (N.eqb y) (triggers r)).
  - intros [<-|H]; [right; reflexivity|].
    destruct (IH (length s) ltac:(subst n; simpl; lia) s eq_refl H) as [K|K];
      [left; right; right; exact K | right; exact K].
  - intros [<-|H]; [left; left; reflexivity|].
    destruct (IH (length (y :: s)) ltac:(subst n; simpl; lia) (y :: s) eq_refl H)
      as [K|K]; [left; right; exact K | right; exact K].
Qed.

Lemma passes_chars rs : forall s c,
  In c (fold_left contract rs s) ->
  In c s \/ exists r, In r rs /\ c = target r.
Proof.
  induction rs as [|r0 rs IH]; intros s c H; [left; exact H|].
  cbn [fold_left] in H. destruct (IH _ _ H) as [K|(r & Hr & ->)].
  - apply contract_chars in K. destruct K as [K| ->]; [left; exact K|].
    right. exists r0. split; [now left | reflexivity].
  - right. exists r. split; [now right | reflexivity].
Qed.

Lemma REMAP_value_fixed c v :
  lookup REMAP c = Some v -> translate_char REMAP v = v.
Proof.
  intros H. apply lookup_In in H. apply (in_map snd) in H. cbn [snd] in H.
  apply N.eqb_eq. revert v H.
  apply (proj1 (forallb_forall (fun v => translate_char REMAP v =? v) (map snd REMAP))).
  vm_compute. reflexivity.
Qed.

Lemma REMAP_idempotent c :
  translate_char REMAP (translate_char REMAP c) = translate_char REMAP c.
Proof.
  unfold translate_char at 2 3. destruct (lookup REMAP c) as [v|] eqn:E.
  - apply (REMAP_value_fixed _ _ E).
  - unfold translate_char. rewrite E. reflexivity.
Qed.

Lemma REMAP_target_fixed r :
  In r LIGATURES -> target r <> glyph_hwa ->
  translate_char REMAP (target r) = target r.
Proof.
  intros Hr Hn.
  assert (H : (target r =? glyph_hwa) || (translate_char REMAP (target r) =? target r) = true).
  { revert r Hr Hn. intros r Hr _. revert r Hr.
    apply (proj1 (forallb_forall
             (fun r => (target r =? glyph_hwa)
                       || (translate_char REMAP (target r) =? target r)) LIGATURES)).
    vm_compute. reflexivity. }
  apply orb_true_iff in H. destruct H as [H|H]; apply N.eqb_eq in H; [contradiction | exact H].
Qed.

Lemma remap_chars_fixed x c :
  In c (remap x) -> c <> glyph_hwa -> translate_char REMAP c = c.
Proof.
  intros Hc Hn. unfold remap, ligatures in Hc. apply passes_chars in Hc.
  destruct Hc as [Hc|(r & Hr & ->)].
  - unfold translate in Hc. apply in_map_iff in Hc. destruct Hc as (c0 & <- & _).
    apply REMAP_idempotent.
  - apply REMAP_target_fixed; assumption.
Qed.

Lemma remap_idempotent_without_hwa x :
  ~ In glyph_hwa (remap x) -> remap (remap x) = remap x.
Proof.
  intros H. unfold remap at 1.
  assert (E : translate REMAP (remap x) = remap x).
  { unfold translate. rewrite <- (map_id (remap x)) at 2. apply map_ext_in.
    intros c Hc. apply (remap_chars_fixed x c Hc). intros ->. contradiction. }
  rewrite E. unfold remap. apply ligatures_idempotent.
Qed.

(** The table pass on a remapped text: only U+128B changes, and it is
    neither a base glyph nor a trigger, before or after. *)
Lemma hwa_inert r :
  In r LIGATURES ->
  (glyph_hwa =? base r) = false
  /\ (translate_char REMAP glyph_hwa =? base r) = false
  /\ existsb (N.eqb glyph_hwa) (triggers r) = false
  /\ existsb (N.eqb (translate_char REMAP glyph_hwa)) (triggers r) = false.
Proof.
  intros Hr.
  assert (H : negb (glyph_hwa =? base r)
              && negb (translate_char REMAP glyph_hwa =? base r)
              && negb (existsb (N.eqb glyph_hwa) (triggers r))
              && negb (existsb (N.eqb (translate_char REMAP glyph_hwa)) (triggers r))
              = true).
  { revert r Hr.
    apply (proj1 (forallb_forall
             (fun r => negb (glyph_hwa =? base r)
                       && negb (translate_char REMAP glyph_hwa =? base r)
                       && negb (existsb (N.eqb glyph_hwa) (triggers r))
                       && negb (existsb (N.eqb (translate_char REMAP glyph_hwa))
                                        (triggers r))) LIGATURES)).
    vm_compute. reflexivity. }
  rewrite !andb_true_iff, !negb_true_iff in H. tauto.
Qed.

Lemma translate_keeps_pair_free r y :
  In r LIGATURES ->
  (forall c, In c y -> c <> glyph_hwa -> translate_char REMAP c = c) ->
  pair_free r y = true -> pair_free r (translate REMAP y) = true.
Proof.
  intros Hr. destruct (hwa_inert r Hr) as (B1 & B2 & T1 & T2).
  assert (K : forall c, (c <> glyph_hwa -> translate_char REMAP c = c) ->
                (translate_char REMAP c =? base r) = (c =? base r)
                /\ existsb (N.eqb (translate_char REMAP c)) (triggers r)
                   = existsb (N.eqb c) (triggers r)).
  { intros c Hc. destruct (N.eq_dec c glyph_hwa) as [->|Hn].
    - rewrite B1, B2, T1, T2. split; reflexivity.
    - rewrite (Hc Hn). split; reflexivity. }
  induction y as [|c t IH]; intros Hy H; [reflexivity|].
  unfold translate. cbn [map pair_free] in *. fold (translate REMAP t).
  apply andb_true_iff in H. destruct H as [Hc Ht].
  destruct (K c (Hy c (or_introl eq_refl))) as [Kb _].
  rewrite Kb. apply andb_true_iff. split.
  - destruct t as [|d t]; [exact Hc|].
    unfold starts_in_list, translate in *. cbn [map starts_in] in *.
    destruct (K d (Hy d (or_intror (or_introl eq_refl)))) as [_ Kt].
    rewrite Kt. exact Hc.
  - apply IH; [|exact Ht]. intros c0 Hc0. apply Hy. right. exact Hc0.
Qed.

(** A second pass of the remapper is the table pass alone: it turns every
    U+128B into U+1200 and touches nothing else. *)
Lemma remap_second_pass x : remap (remap x) = translate REMAP (remap x).
Proof.
  unfold remap at 1. unfold ligatures. apply passes_fixed. intros r Hr.
  apply translate_keeps_pair_free;
    [exact Hr | apply remap_chars_fixed | apply ligatures_pair_free, Hr].
Qed.

Lemma remap_idempotent_iff x :
  remap (remap x) = remap x <-> ~ In glyph_hwa (remap x).
Proof.
  split.
  - intros E H. rewrite <- E, remap_second_pass in H.
    apply (translate_REMAP_no_labialized_h _ H).
  - apply remap_idempotent_without_hwa.
Qed.

Lemma remap_third_pass x : remap (remap (remap x)) = remap (remap x).
Proof.
  apply remap_idempotent_without_hwa. rewrite remap_second_pass.
  apply translate_REMAP_no_labialized_h.
Qed.

End SecondPass.

(** ** Idempotence of the stages *)

(** C3 (as stated): the remapper and the punctuation stage are not
    idempotent: a second pass of the remapper turns the ligature U+128B into
    U+1200, and a second pass of the punctuation stage protects a decimal
    that the first pass created next to token-like text. *)
Lemma stages_not_idempotent :
  text (CharacterRemapper.apply
          (RawText (text (CharacterRemapper.apply (RawText (py "ሁዋ"))))))
  <> text (CharacterRemapper.apply (RawText (py "ሁዋ")))
  /\ text (PunctuationNormalizer.apply
             (RawText (text (PunctuationNormalizer.apply
                               (RawText (py "__DECIMAL_0_1..5"))))))
     <> text (PunctuationNormalizer.apply (RawText (py "__DECIMAL_0_1..5"))).
Proof. split; vm_compute; discriminate. Qed.

(** With [strip_control], the Unicode stage is not idempotent either on a
    database with the following entries of the Unicode character database:
    removing the zero-width joiner (category Cf) between a letter and a
    combining accent leaves a text that the next pass composes. *)
Lemma strip_control_can_break_idempotence nf category :
  nf UnicodeNormalizer.NFC [0x65; 0x200D; 0x301] = [0x65; 0x200D; 0x301] ->
  nf UnicodeNormalizer.NFC [0x65; 0x301] = [0xE9] ->
  category 0x65 = UnicodeNormalizer.Ll ->
  category 0x200D = UnicodeNormalizer.Cf ->
  category 0x301 = UnicodeNormalizer.Mn ->
  category 0xE9 = UnicodeNormalizer.Ll ->
  let self := {| UnicodeNormalizer.form := "NFC";
                 UnicodeNormalizer.strip_control := true |} in
  exists out out',
    UnicodeNormalizer.apply nf category self (RawText [0x65; 0x200D; 0x301]) = inr out
    /\ UnicodeNormalizer.apply nf category self (RawText (text out)) = inr out'
    /\ text out = [0x65; 0x301] /\ text out' = [0xE9].
Proof.
  intros H1 H2 Ce Cj Ca Cx self.
  exists {| text := [0x65; 0x301]; flag := true |},
         {| text := [0xE9]; flag := true |}.
  unfold UnicodeNormalizer.apply, UnicodeNormalizer.normalize, self.
  cbn [_extract_text UnicodeNormalizer.form UnicodeNormalizer.strip_control
       UnicodeNormalizer.form_of_name text].
  change (UnicodeNormalizer.form_of_name "NFC") with (Some UnicodeNormalizer.NFC).
  cbv iota. rewrite H1.
  cbn [filter]. unfold UnicodeNormalizer.not_control. rewrite Ce, Cj, Ca.
  cbn. rewrite H2. cbn. rewrite Cx. cbn. repeat split.
Qed.

Lemma unicode_idempotent_without_strip nf category name data out :
  (forall f s, nf f (nf f s) = nf f s) ->
  UnicodeNormalizer.apply nf category
    {| UnicodeNormalizer.form := name; UnicodeNormalizer.strip_control := false |}
    data = inr out ->
  exists out',
    UnicodeNormalizer.apply nf category
      {| UnicodeNormalizer.form := name; UnicodeNormalizer.strip_control := false |}
      (RawText (text out)) = inr out'
    /\ text out' = text out.
Proof.
  intros Hnf. unfold UnicodeNormalizer.apply, UnicodeNormalizer.normalize.
  cbn [UnicodeNormalizer.form UnicodeNormalizer.strip_control _extract_text].
  destruct (_extract_text data) as [|c t].
  - intros H. inversion H; subst. cbn [text]. eexists. split; reflexivity.
  - destruct (UnicodeNormalizer.form_of_name name) as [f|]; [|discriminate].
    intros H. inversion H; subst. cbn [text].
    destruct (nf f (c :: t)) as [|d u] eqn:E.
    + eexists. split; reflexivity.
    + rewrite <- E, Hnf. eexists. split; reflexivity.
Qed.

(** With [strip_control], a second application changes nothing when the
    stripped text is still in the normal form, that is when removing the
    characters of group C enables no new composition. *)
Lemma filter_filter (p : char -> bool) (s : str) : filter p (filter p s) = filter p s.
Proof.
  induction s as [|c t IH]; [reflexivity|]. cbn [filter].
  destruct (p c) eqn:Pc; [cbn [filter]; rewrite Pc, IH; reflexivity | exact IH].
Qed.

Lemma unicode_idempotent_when_stable nf category name data out :
  (forall f, UnicodeNormalizer.form_of_name name = Some f ->
     nf f (filter (UnicodeNormalizer.not_control category)
                  (nf f (_extract_text data)))
     = filter (UnicodeNormalizer.not_control category) (nf f (_extract_text data))) ->
  UnicodeNormalizer.apply nf category
    {| UnicodeNormalizer.form := name; UnicodeNormalizer.strip_control := true |}
    data = inr out ->
  exists out',
    UnicodeNormalizer.apply nf category
      {| UnicodeNormalizer.form := name; UnicodeNormalizer.strip_control := true |}
      (RawText (text out)) = inr out'
    /\ text out' = text out.
Proof.
  intros Hst. unfold UnicodeNormalizer.apply, UnicodeNormalizer.normalize.
  cbn [UnicodeNormalizer.form UnicodeNormalizer.strip_control _extract_text].
  destruct (_extract_text data) as [|c t].
  - intros H. inversion H; subst. cbn [text filter]. eexists. split; reflexivity.
  - destruct (UnicodeNormalizer.form_of_name name) as [f|]; [|discriminate].
    intros H. inversion H; subst. cbn [text]. specialize (Hst f eq_refl).
    destruct (filter (UnicodeNormalizer.not_control category) (nf f (c :: t)))
      as [|d u] eqn:E.
    + eexists. split; reflexivity.
    + assert (K : filter (UnicodeNormalizer.not_control category) (d :: u) = d :: u)
        by (rewrite <- E; apply filter_filter).
      rewrite Hst, K. eexists. split; reflexivity.
Qed.

Lemma unicode_idempotent_without_group_C nf category name data out :
  (forall f s, nf f (nf f s) = nf f s) ->
  (forall f, UnicodeNormalizer.form_of_name name = Some f ->
     forallb (UnicodeNormalizer.not_control category)
             (nf f (_extract_text data)) = true) ->
  UnicodeNormalizer.apply nf category
    {| UnicodeNormalizer.form := name; UnicodeNormalizer.strip_control := true |}
    data = inr out ->
  exists out',
    UnicodeNormalizer.apply nf category
      {| UnicodeNormalizer.form := name; UnicodeNormalizer.strip_control := true |}
      (RawText (text out)) = inr out'
    /\ text out' = text out.
Proof.
  intros Hnf Hc. apply unicode_idempotent_when_stable. intros f Hf.
  assert (E : filter (UnicodeNormalizer.not_control category)
                     (nf f (_extract_text data)) = nf f (_extract_text data)).
  { specialize (Hc f Hf).
    induction (nf f (_extract_text data)) as [|c t IH]; [reflexivity|].
    cbn [forallb] in Hc. apply andb_true_iff in Hc. destruct Hc as [Hc Ht].
    cbn [filter]. rewrite Hc, (IH Ht). reflexivity. }
  rewrite E. apply Hnf.
Qed.

(** C3 (amended): each stage is idempotent on text content under a side
    condition.  UnicodeNormalizer without [strip_control] is idempotent
    (the normalization forms are); with [strip_control] it is idempotent on
    every input whose stripped text is still in the normal form (removing
    the characters of group C enables no new composition), in particular on
    every input whose normalized text has no character of group C.
    CharacterRemapper is idempotent on an input exactly when its remapped
    text has no ligature U+128B, and a third pass never changes the result
    of the second; PunctuationNormalizer is idempotent on every input that
    does not contain the reserved word [DECIMAL_] of its tokens. *)
Theorem stages_idempotent_on_safe_inputs :
  (forall nf category name data out,
      (forall f s, nf f (nf f s) = nf f s) ->
      UnicodeNormalizer.apply nf category
        {| UnicodeNormalizer.form := name; UnicodeNormalizer.strip_control := false |}
        data = inr out ->
      exists out',
        UnicodeNormalizer.apply nf category
          {| UnicodeNormalizer.form := name; UnicodeNormalizer.strip_control := false |}
          (RawText (text out)) = inr out'
        /\ text out' = text out)
  /\ (forall nf category name data out,
        (forall f, UnicodeNormalizer.form_of_name name = Some f ->
           nf f (filter (UnicodeNormalizer.not_control category)
                        (nf f (_extract_text data)))
           = filter (UnicodeNormalizer.not_control category)
                    (nf f (_extract_text data))) ->
        UnicodeNormalizer.apply nf category
          {| UnicodeNormalizer.form := name; UnicodeNormalizer.strip_control := true |}
          data = inr out ->
        exists out',
          UnicodeNormalizer.apply nf category
            {| UnicodeNormalizer.form := name; UnicodeNormalizer.strip_control := true |}
            (RawText (text out)) = inr out'
          /\ text out' = text out)
  /\ (forall nf category name data out,
        (forall f s, nf f (nf f s) = nf f s) ->
        (forall f, UnicodeNormalizer.form_of_name name = Some f ->
           forallb (UnicodeNormalizer.not_control category)
                   (nf f (_extract_text data)) = true) ->
        UnicodeNormalizer.apply nf category
          {| UnicodeNormalizer.form := name; UnicodeNormalizer.strip_control := true |}
          data = inr out ->
        exists out',
          UnicodeNormalizer.apply nf category
            {| UnicodeNormalizer.form := name; UnicodeNormalizer.strip_control := true |}
            (RawText (text out)) = inr out'
          /\ text out' = text out)
  /\ (forall data,
        text (CharacterRemapper.apply (RawText (text (CharacterRemapper.apply data))))
        = text (CharacterRemapper.apply data)
        <-> ~ In glyph_hwa (text (CharacterRemapper.apply data)))
  /\ (forall data,
        let twice :=
          text (CharacterRemapper.apply
                  (RawText (text (CharacterRemapper.apply data)))) in
        text (CharacterRemapper.apply (RawText twice)) = twice)
  /\ (forall data,
        reserved_free (_extract_text data) = true ->
        text (PunctuationNormalizer.apply
                (RawText (text (PunctuationNormalizer.apply data))))
        = text (PunctuationNormalizer.apply data)).
Proof.
  split; [exact unicode_idempotent_without_strip|].
  split; [exact unicode_idempotent_when_stable|].
  split; [exact unicode_idempotent_without_group_C|].
  split; [|split].
  - intros data. unfold CharacterRemapper.apply. cbn [text _extract_text].
    apply remap_idempotent_iff.
  - intros data. unfold CharacterRemapper.apply. cbn [text _extract_text].
    apply remap_third_pass.
  - intros data H. unfold PunctuationNormalizer.apply. cbn [text _extract_text].
    apply normalize_idempotent_when_free, H.
Qed.

Lemma stages_idempotent_on_safe_inputs_witness :
  (exists out',
      UnicodeNormalizer.apply Ascii7.nf Ascii7.category
        {| UnicodeNormalizer.form := "NFKC"; UnicodeNormalizer.strip_control := false |}
        (RawText (py "abc")) = inr out'
      /\ text out' = py "abc")
  /\ (exists out',
        UnicodeNormalizer.apply Ascii7.nf Ascii7.category
          {| UnicodeNormalizer.form := "NFC"; UnicodeNormalizer.strip_control := true |}
          (RawText [0x61; 0x62]) = inr out'
        /\ text out' = [0x61; 0x62])
  /\ (exists out',
        UnicodeNormalizer.apply Ascii7.nf Ascii7.category
          {| UnicodeNormalizer.form := "NFD"; UnicodeNormalizer.strip_control := true |}
          (RawText [0x61; 0x20; 0x62]) = inr out'
        /\ text out' = [0x61; 0x20; 0x62])
  /\ text (CharacterRemapper.apply
             (RawText (text (CharacterRemapper.apply (RawText (py "ቱዋል ሐ"))))))
     = text (CharacterRemapper.apply (RawText (py "ቱዋል ሐ")))
  /\ text (PunctuationNormalizer.apply
             (RawText (text (PunctuationNormalizer.apply
                               (RawText (py "snake_case  8.5%,, or 1..5 now!!"))))))
     = text (PunctuationNormalizer.apply
               (RawText (py "snake_case  8.5%,, or 1..5 now!!"))).
Proof.
  split; [|split; [|split; [|split]]].
  - apply (proj1 stages_idempotent_on_safe_inputs Ascii7.nf Ascii7.category "NFKC"%string
             (RawText (py "abc")) {| text := py "abc"; flag := false |});
      [intros; reflexivity | reflexivity].
  - apply (proj1 (proj2 stages_idempotent_on_safe_inputs)
             Ascii7.nf Ascii7.category "NFC"%string
             (RawText [0x61; 0x09; 0x62]) {| text := [0x61; 0x62]; flag := true |});
      [intros; reflexivity | reflexivity].
  - apply (proj1 (proj2 (proj2 stages_idempotent_on_safe_inputs))
             Ascii7.nf Ascii7.category "NFD"%string
             (RawText [0x61; 0x20; 0x62])
             {| text := [0x61; 0x20; 0x62]; flag := false |});
      [intros; reflexivity | intros; reflexivity | reflexivity].
  - apply (proj1 (proj2 (proj2 (proj2 stages_idempotent_on_safe_inputs)))
             (RawText (py "ቱዋል ሐ"))).
    vm_compute. intuition discriminate.
  - apply (proj2 (proj2 (proj2 (proj2 (proj2 stages_idempotent_on_safe_inputs))))
             (RawText (py "snake_case  8.5%,, or 1..5 now!!"))).
    vm_compute. reflexivity.
Defined.

(** ** Further worked inputs *)

Example mixed_runs_example :
  text (PunctuationNormalizer.apply (RawText (py "a?!b!?c። ።  x")))
  = py "a!b?c። ። x".
Proof. vm_compute. reflexivity. Qed.

Example whitespace_example :
  PunctuationNormalizer.apply (RawText (py "a   b" ++ [0x0A; 0x0A] ++ py "c"))
  = {| text := py "a b c"; flag := true |}.
Proof. vm_compute. reflexivity. Qed.

Example empty_input_example :
  PunctuationNormalizer.apply (RawText []) = {| text := []; flag := false |}
  /\ CharacterRemapper.apply (RawText []) = {| text := []; flag := false |}.
Proof. split; reflexivity. Qed.

Example remapper_example :
  text (CharacterRemapper.apply (RawText (py "ቱዋል ሐ ሁአ ዐ ቱዐ")))
  = py "ቷል ሀ ኋ አ ቷ".
Proof. vm_compute. reflexivity. Qed.

(** * Further properties of the code *)

(** ** The punctuation stage, step by step *)

Lemma protect_eq x :
  PunctuationNormalizer.protect x
  = (render 0 (Re.finditer Re.decimal x), recorded 0 (Re.finditer Re.decimal x)).
Proof. unfold PunctuationNormalizer.protect. rewrite capture_spec. reflexivity. Qed.

Lemma normalize_eq x :
  PunctuationNormalizer.normalize x
  = PunctuationNormalizer.squeeze
      (PunctuationNormalizer.restore (recorded 0 (Re.finditer Re.decimal x))
         (PunctuationNormalizer.collapse
            (translate PT (render 0 (Re.finditer Re.decimal x))))).
Proof. unfold PunctuationNormalizer.normalize. rewrite protect_eq. reflexivity. Qed.

Lemma squeeze_ws_normal w : ws_normal (PunctuationNormalizer.squeeze w) = true.
Proof.
  rewrite squeeze_eq. unfold ws_normal.
  rewrite no_adjacent_strip by (apply squeeze_no_adjacent; reflexivity).
  unfold only_space. rewrite forallb_strip by (apply squeeze_only_space; reflexivity).
  rewrite strip_starts, strip_ends. reflexivity.
Qed.

Lemma normalize_ws_normal x : ws_normal (PunctuationNormalizer.normalize x) = true.
Proof. rewrite normalize_eq. apply squeeze_ws_normal. Qed.

(** X1: for every input, the text returned by the punctuation stage has its
    white space in normal form: every white-space character is a plain
    space, no two of them are adjacent, and the text neither starts nor ends
    with one. *)
Theorem output_white_space_is_normal data :
  let out := text (PunctuationNormalizer.apply data) in
  only_space isspace out = true
  /\ no_adjacent isspace out = true
  /\ starts_in isspace out = false
  /\ starts_in isspace (rev out) = false.
Proof.
  cbv zeta. unfold PunctuationNormalizer.apply. cbn [text].
  pose proof (normalize_ws_normal (_extract_text data)) as H.
  unfold ws_normal in H. rewrite !andb_true_iff, !negb_true_iff in H. tauto.
Qed.

(** *** Replacing inside a text without repeated marks *)

Lemma no_adjacent_app_r cls a b :
  no_adjacent cls (a ++ b) = true -> no_adjacent cls b = true.
Proof.
  induction a as [|c a IH]; [exact (fun H => H)|]. cbn [app no_adjacent].
  intros H. apply andb_true_iff in H. apply IH, H.
Qed.

Lemma no_adjacent_shaped_app v r :
  decimal_shaped v -> no_adjacent punct r = true -> no_adjacent punct (v ++ r) = true.
Proof.
  intros Hv Hr. rewrite <- (squash_fixed _ _ Hr), <- squash_shaped by exact Hv.
  apply squash_no_adjacent.
Qed.

Section SubOfValue.
Variable mt : Re.matcher.
Hypothesis Hmt : ReSpec.splits mt.
Variable v : str.

Lemma sub_value_starts s :
  decimal_shaped v ->
  starts_in punct (Re.sub mt (fun _ => v) s) = true -> starts_in punct s = true.
Proof.
  intros Hv. destruct s as [|c t]; [discriminate|].
  rewrite ReFacts.sub_cons by exact Hmt.
  destruct (mt (c :: t)) as [[m rest]|]; [|exact (fun H => H)].
  rewrite (shaped_starts v _ Hv). discriminate.
Qed.

Lemma sub_value_no_adjacent s :
  decimal_shaped v -> no_adjacent punct s = true ->
  no_adjacent punct (Re.sub mt (fun _ => v) s) = true.
Proof.
  intros Hv. remember (length s) as n eqn:Hn. revert s Hn.
  induction n as [n IH] using lt_wf_ind. intros s Hn Hs.
  destruct s as [|c t]; [reflexivity|].
  rewrite ReFacts.sub_cons by exact Hmt.
  destruct (mt (c :: t)) as [[m rest]|] eqn:E.
  - pose proof (ReFacts.splits_shorter _ _ _ _ Hmt E) as L.
    destruct (Hmt _ _ _ E) as [Es _].
    apply no_adjacent_shaped_app; [exact Hv|].
    apply (IH (length rest)); [subst n; exact L | reflexivity |].
    rewrite Es in Hs. apply (no_adjacent_app_r _ _ _ Hs).
  - cbn [no_adjacent] in Hs |- *. apply andb_true_iff in Hs. destruct Hs as [Hc Ht].
    apply andb_true_iff. split.
    + apply negb_true_iff. apply negb_true_iff in Hc.
      destruct (punct c); [|reflexivity]. cbn [andb] in Hc |- *.
      destruct (starts_in punct (Re.sub mt (fun _ => v) t)) eqn:K; [|reflexivity].
      apply sub_value_starts in K; [congruence | exact Hv].
    + apply (IH (length t)); [subst n; simpl; lia | reflexivity | exact Ht].
Qed.

Lemma sub_value_forallb (P : char -> bool) s :
  forallb P v = true -> forallb P s = true ->
  forallb P (Re.sub mt (fun _ => v) s) = true.
Proof.
  intros Hv. remember (length s) as n eqn:Hn. revert s Hn.
  induction n as [n IH] using lt_wf_ind. intros s Hn Hs.
  destruct s as [|c t]; [reflexivity|].
  rewrite ReFacts.sub_cons by exact Hmt.
  destruct (mt (c :: t)) as [[m rest]|] eqn:E.
  - pose proof (ReFacts.splits_shorter _ _ _ _ Hmt E) as L.
    destruct (Hmt _ _ _ E) as [Es _].
    rewrite forallb_app, Hv.
    apply (IH (length rest)); [subst n; exact L | reflexivity |].
    rewrite Es, forallb_app in Hs. apply andb_true_iff in Hs. apply Hs.
  - cbn [forallb] in Hs |- *. apply andb_true_iff in Hs. destruct Hs as [-> Ht].
    apply (IH (length t)); [subst n; simpl; lia | reflexivity | exact Ht].
Qed.

End SubOfValue.

Lemma recorded_shaped ps : forall n,
  on_hits decimal_shaped ps ->
  Forall (fun tv => decimal_shaped (snd tv)) (recorded n ps).
Proof.
  intros n H. revert n. induction H as [|[c|m] r Hp Hr IH]; intros n;
    cbn [recorded]; [constructor | apply IH | constructor; [exact Hp | apply IH]].
Qed.

Lemma recorded_tokens ps : forall n,
  map fst (recorded n ps)
  = map PunctuationNormalizer.token (seq n (length (recorded n ps))).
Proof.
  induction ps as [|[c|m] r IH]; intros n; [reflexivity | apply IH |].
  cbn [recorded map length seq fst]. f_equal. apply IH.
Qed.

(** What holds before the tokens are put back holds after, when it holds of
    every recorded value. *)
Lemma restore_invariant (Q : str -> Prop) ds :
  (forall n v s, In (PunctuationNormalizer.token n, v) ds -> Q s ->
                 Q (replace (PunctuationNormalizer.token n) v s)) ->
  (forall tv, In tv ds -> exists n, fst tv = PunctuationNormalizer.token n) ->
  forall s, Q s -> Q (PunctuationNormalizer.restore ds s).
Proof.
  unfold PunctuationNormalizer.restore.
  induction ds as [|[t v] ds IH]; intros Hstep Htok s Hs; [exact Hs|].
  cbn [fold_left fst snd]. apply IH.
  - intros n v' s' Hin. apply Hstep. right. exact Hin.
  - intros tv Hin. apply Htok. right. exact Hin.
  - destruct (Htok (t, v) (or_introl eq_refl)) as [n En]. cbn [fst] in En. subst t.
    apply Hstep; [left; reflexivity | exact Hs].
Qed.

Lemma recorded_is_token ps : forall n tv,
  In tv (recorded n ps) -> exists k, fst tv = PunctuationNormalizer.token k.
Proof.
  induction ps as [|[c|m] r IH]; intros n tv H; [destruct H | apply (IH _ _ H) |].
  cbn [recorded] in H. destruct H as [<-|H]; [exists n; reflexivity | apply (IH _ _ H)].
Qed.

Lemma recorded_value_shaped ps n t v :
  on_hits decimal_shaped ps -> In (t, v) (recorded n ps) -> decimal_shaped v.
Proof.
  intros Hs Hin. pose proof (recorded_shaped ps n Hs) as F.
  rewrite Forall_forall in F. apply (F (t, v) Hin).
Qed.

Lemma replace_token_is_sub n v s :
  replace (PunctuationNormalizer.token n) v s
  = Re.sub (Re.literal (PunctuationNormalizer.token n)) (fun _ => v) s.
Proof. apply replace_token. Qed.

Lemma normalize_no_adjacent x :
  no_adjacent punct (PunctuationNormalizer.normalize x) = true.
Proof.
  rewrite normalize_eq.
  set (ps := Re.finditer Re.decimal x).
  rewrite squeeze_eq. apply no_adjacent_strip, no_adjacent_punct_squeeze.
  apply (restore_invariant (fun s => no_adjacent punct s = true)).
  - intros n v s Hin Hs. rewrite replace_token_is_sub.
    apply sub_value_no_adjacent;
      [apply ReFacts.splits_literal, token_nonempty | | exact Hs].
    apply (recorded_value_shaped ps 0 _ v (decimal_pieces_shaped _) Hin).
  - apply recorded_is_token.
  - rewrite collapse_squash. apply squash_no_adjacent.
Qed.

(** X2: for every input, the text returned by the punctuation stage has no
    two adjacent marks of the collapsing class: collapsing is complete, and
    neither putting the decimals back nor squeezing the white space brings
    two marks together. *)
Theorem output_has_no_repeated_marks data :
  no_adjacent PunctuationNormalizer.punct_all
    (text (PunctuationNormalizer.apply data)) = true.
Proof.
  unfold PunctuationNormalizer.apply. cbn [text]. apply normalize_no_adjacent.
Qed.

Lemma shaped_PT_free v : decimal_shaped v -> PT_free v = true.
Proof.
  intros (ds & es & -> & _ & _ & Hd & He). unfold PT_free.
  apply forallb_forall. intros c Hc. apply N.eqb_eq.
  apply in_app_or in Hc. destruct Hc as [Hc|[<-|Hc]]; [| reflexivity |];
    apply PT_fixes_digit.
  - apply (proj1 (forallb_forall _ _) Hd c Hc).
  - apply (proj1 (forallb_forall _ _) He c Hc).
Qed.

Lemma normalize_PT_free x : PT_free (PunctuationNormalizer.normalize x) = true.
Proof.
  rewrite normalize_eq.
  set (ps := Re.finditer Re.decimal x).
  rewrite squeeze_eq. unfold PT_free.
  apply forallb_strip, forallb_squeeze_ws; [reflexivity|].
  apply (restore_invariant (fun s => PT_free s = true)).
  - intros n v s Hin Hs. rewrite replace_token_is_sub.
    apply sub_value_forallb;
      [apply ReFacts.splits_literal, token_nonempty | | exact Hs].
    apply shaped_PT_free.
    apply (recorded_value_shaped ps 0 _ v (decimal_pieces_shaped _) Hin).
  - apply recorded_is_token.
  - rewrite collapse_squash. apply forallb_squash, PT_free_translate.
Qed.

(** X3: for every input, no character of the returned text is a key of the
    punctuation table: every curly quote and full-width mark has been
    replaced. *)
Theorem output_has_no_table_key data :
  forallb (fun c => match lookup PunctuationNormalizer.PUNCT_TRANSLATION c with
                    | None => true
                    | Some _ => false
                    end)
          (text (PunctuationNormalizer.apply data)) = true.
Proof.
  assert (F : PT_free (text (PunctuationNormalizer.apply data)) = true).
  { unfold PunctuationNormalizer.apply. cbn [text]. apply normalize_PT_free. }
  apply forallb_forall. intros c Hc. unfold PT_free in F.
  pose proof (proj1 (forallb_forall _ _) F c Hc) as K. apply N.eqb_eq in K.
  destruct (lookup PunctuationNormalizer.PUNCT_TRANSLATION c) as [v|] eqn:E;
    [|reflexivity].
  exfalso. unfold translate_char in K. rewrite E in K. subst v.
  pose proof (PT_value_in _ _ E) as Hv. cbn [In] in Hv.
  repeat (destruct Hv as [<-|Hv]; [vm_compute in E; discriminate E|]).
  contradiction.
Qed.

(** X4: on an input that does not contain the reserved word [DECIMAL_], the
    stage returns exactly what translating, collapsing and squeezing the raw
    text gives: protecting and restoring the decimals changes nothing,
    because the dot of a decimal literal stands between two digits and is
    never part of a run. *)
Theorem protection_is_transparent data :
  reserved_free (_extract_text data) = true ->
  text (PunctuationNormalizer.apply data)
  = PunctuationNormalizer.squeeze
      (PunctuationNormalizer.collapse
         (translate PunctuationNormalizer.PUNCT_TRANSLATION (_extract_text data))).
Proof.
  intros H. unfold PunctuationNormalizer.apply. cbn [text].
  rewrite collapse_squash. apply normalize_transparent, H.
Qed.

Lemma protection_is_transparent_witness :
  text (PunctuationNormalizer.apply (WithText (py "v1.2.3: 8.5%!! ok")))
  = PunctuationNormalizer.squeeze
      (PunctuationNormalizer.collapse
         (translate PunctuationNormalizer.PUNCT_TRANSLATION
            (_extract_text (WithText (py "v1.2.3: 8.5%!! ok"))))).
Proof.
  apply (protection_is_transparent (WithText (py "v1.2.3: 8.5%!! ok"))).
  vm_compute. reflexivity.
Defined.

(** X5: protecting the decimals and putting them back is a round trip: on a
    text that does not contain the reserved word [DECIMAL_], restoring the
    recorded pairs in the protected text gives the text back. *)
Theorem protect_restore_round_trip x :
  reserved_free x = true ->
  PunctuationNormalizer.restore (snd (PunctuationNormalizer.protect x))
                                (fst (PunctuationNormalizer.protect x)) = x.
Proof.
  intros H. rewrite protect_eq. cbn [fst snd].
  set (ps := Re.finditer Re.decimal x).
  assert (Hflat : flat ps = x) by apply flat_finditer, ReFacts.splits_decimal.
  pose proof (restore_render ps 0 [] eq_refl) as R. cbn [app] in R.
  rewrite R; [exact Hflat | rewrite Hflat; exact H].
Qed.

Lemma protect_restore_round_trip_witness :
  PunctuationNormalizer.restore
    (snd (PunctuationNormalizer.protect (py "pi_1 = 3.14, e = 2.718")))
    (fst (PunctuationNormalizer.protect (py "pi_1 = 3.14, e = 2.718")))
  = py "pi_1 = 3.14, e = 2.718".
Proof.
  apply (protect_restore_round_trip (py "pi_1 = 3.14, e = 2.718")).
  vm_compute. reflexivity.
Defined.

Lemma token_inj a b :
  PunctuationNormalizer.token a = PunctuationNormalizer.token b -> a = b.
Proof.
  rewrite !token_eq. intros H. inversion H as [E].
  apply app_inv_tail in E. apply str_of_nat_inj, E.
Qed.

Lemma NoDup_map_token l : NoDup l -> NoDup (map PunctuationNormalizer.token l).
Proof.
  induction 1 as [|a l Ha Hl IH]; cbn [map]; constructor; [|exact IH].
  intros Hin. apply in_map_iff in Hin. destruct Hin as (b & Eb & Hb).
  apply token_inj in Eb. subst b. contradiction.
Qed.

Lemma recorded_values n ps : map snd (recorded n ps) = hits ps.
Proof.
  revert n. induction ps as [|[c|m] r IH]; intros n; [reflexivity | apply IH |].
  cbn [recorded hits map snd]. rewrite IH. reflexivity.
Qed.

Lemma hits_shaped ps : on_hits decimal_shaped ps -> Forall decimal_shaped (hits ps).
Proof.
  induction 1 as [|[c|m] r Hp Hr IH]; cbn [hits]; [constructor | exact IH |].
  constructor; assumption.
Qed.

(** X6: the pairs recorded by one call of the stage follow the matches of
    the decimal pattern in the text: the recorded values are the matches,
    all of them and in their order from the left; the token of the i-th
    match is the one numbered i, counting from 0, so that the tokens are
    pairwise distinct; the protected text is the text with the i-th match
    replaced by the i-th token; and every match is a decimal literal
    (digits, a dot, digits). *)
Theorem recorded_pairs_follow_the_matches x :
  let matches := hits (Re.finditer Re.decimal x) in
  let decimals := snd (PunctuationNormalizer.protect x) in
  map snd decimals = matches
  /\ map fst decimals
     = map PunctuationNormalizer.token (seq 0 (length matches))
  /\ NoDup (map fst decimals)
  /\ fst (PunctuationNormalizer.protect x) = render 0 (Re.finditer Re.decimal x)
  /\ Forall decimal_shaped matches.
Proof.
  cbv zeta. rewrite protect_eq. cbn [fst snd].
  set (ps := Re.finditer Re.decimal x).
  assert (L : length (recorded 0 ps) = length (hits ps)).
  { rewrite <- (recorded_values 0 ps), length_map. reflexivity. }
  split; [apply recorded_values|]. split; [|split; [|split]].
  - rewrite <- L. apply recorded_tokens.
  - rewrite recorded_tokens. apply NoDup_map_token, seq_NoDup.
  - reflexivity.
  - apply hits_shaped, decimal_pieces_shaped.
Qed.

Lemma str_eqb_refl a : str_eqb a a = true.
Proof. apply str_eqb_eq. reflexivity. Qed.

(** X7: a text in the normal form of the stage (no key of the table, no two
    marks in a row, single plain spaces and none at the ends) that does not
    contain the reserved word is returned as it is, with the flag false;
    the empty text is such a text. *)
Theorem canonical_text_is_unchanged data :
  reserved_free (_extract_text data) = true ->
  canonical (_extract_text data) = true ->
  PunctuationNormalizer.apply data
  = {| text := _extract_text data; flag := false |}.
Proof.
  intros Hf Hc. unfold PunctuationNormalizer.apply.
  assert (E : PunctuationNormalizer.normalize (_extract_text data) = _extract_text data).
  { rewrite normalize_transparent by exact Hf.
    unfold canonical, ws_normal in Hc.
    rewrite !andb_true_iff, !negb_true_iff in Hc.
    destruct Hc as [[Hpt Hna] [[[Hsp Hos] Hs] He]].
    rewrite (PT_free_fixed _ Hpt), (squash_fixed _ _ Hna), squeeze_eq.
    rewrite (squeeze_fixed _ _ Hsp Hos). apply strip_fixed; assumption. }
  rewrite E, str_eqb_refl. reflexivity.
Qed.

Lemma canonical_text_is_unchanged_witness :
  PunctuationNormalizer.apply (RawText (py "ሰላም፣ ዋጋው 8.5% ነው።"))
  = {| text := _extract_text (RawText (py "ሰላም፣ ዋጋው 8.5% ነው።")); flag := false |}.
Proof.
  apply (canonical_text_is_unchanged (RawText (py "ሰላም፣ ዋጋው 8.5% ነው።")));
    vm_compute; reflexivity.
Defined.

(** X11: the converse holds for every input: when the stage reports no
    change (the flag is false), the input was already in normal form: it has
    no key of the table, no two marks in a row, and its white space is
    single plain spaces with none at the ends. *)
Theorem unchanged_text_is_canonical data :
  flag (PunctuationNormalizer.apply data) = false ->
  canonical (_extract_text data) = true.
Proof.
  unfold PunctuationNormalizer.apply. cbn [flag]. intros H.
  apply negb_false_iff, str_eqb_eq in H. rewrite <- H. unfold canonical.
  rewrite normalize_PT_free, normalize_no_adjacent, normalize_ws_normal.
  reflexivity.
Qed.

Lemma unchanged_text_is_canonical_witness :
  canonical (_extract_text (RawText (py "ዋጋው 8.5% ነው።"))) = true.
Proof.
  apply (unchanged_text_is_canonical (RawText (py "ዋጋው 8.5% ነው።"))).
  vm_compute. reflexivity.
Defined.

(** X8: each rewriting step of the punctuation stage is idempotent on every
    text: the table pass (no value of the table is a key), the collapse of
    repeated marks, and the squeeze of white space. *)
Theorem punctuation_steps_are_idempotent s :
  translate PunctuationNormalizer.PUNCT_TRANSLATION
    (translate PunctuationNormalizer.PUNCT_TRANSLATION s)
  = translate PunctuationNormalizer.PUNCT_TRANSLATION s
  /\ PunctuationNormalizer.collapse (PunctuationNormalizer.collapse s)
     = PunctuationNormalizer.collapse s
  /\ PunctuationNormalizer.squeeze (PunctuationNormalizer.squeeze s)
     = PunctuationNormalizer.squeeze s.
Proof.
  split; [apply PT_free_fixed, PT_free_translate|]. split.
  - rewrite !collapse_squash. apply squash_fixed, squash_no_adjacent.
  - pose proof (squeeze_ws_normal s) as H. unfold ws_normal in H.
    rewrite !andb_true_iff, !negb_true_iff in H.
    destruct H as [[[Hsp Hos] Hs] He].
    rewrite (squeeze_eq (PunctuationNormalizer.squeeze s)).
    rewrite (squeeze_fixed _ _ Hsp Hos). apply strip_fixed; assumption.
Qed.

(** *** What the stage keeps *)

Section Kept.
Variable P : char -> bool.
Variable cls : char -> bool.
Hypothesis P_outside : forall c, P c = true -> cls c = false.

Lemma filter_squash s : filter P (squash cls s) = filter P s.
Proof.
  induction s as [|c t IH]; [reflexivity|]. cbn [squash].
  destruct (cls c && starts_in cls t) eqn:E.
  - apply andb_true_iff in E. destruct E as [Ec _]. cbn [filter].
    destruct (P c) eqn:Pc; [rewrite (P_outside _ Pc) in Ec; discriminate | exact IH].
  - cbn [filter]. rewrite IH. reflexivity.
Qed.

Lemma length_squash s : (length (squash cls s) <= length s)%nat.
Proof.
  induction s as [|c t IH]; [apply Nat.le_refl|]. cbn [squash].
  destruct (cls c && starts_in cls t); cbn [length]; lia.
Qed.

Lemma length_squeeze_ws s : (length (squeeze_ws cls s) <= length s)%nat.
Proof.
  induction s as [|c t IH]; [apply Nat.le_refl|]. cbn [squeeze_ws].
  destruct (cls c); [destruct (starts_in cls t)|]; cbn [length]; lia.
Qed.

Lemma filter_all_outside a : forallb cls a = true -> filter P a = [].
Proof.
  induction a as [|c a IH]; [reflexivity|]. cbn [forallb filter]. intros H.
  apply andb_true_iff in H. destruct H as [Hc Ha].
  destruct (P c) eqn:Pc; [rewrite (P_outside _ Pc) in Hc; discriminate | apply IH, Ha].
Qed.

Hypothesis P_space : P 0x20 = false.

Lemma filter_squeeze_ws s : filter P (squeeze_ws cls s) = filter P s.
Proof.
  induction s as [|c t IH]; [reflexivity|]. cbn [squeeze_ws].
  destruct (cls c) eqn:Ec.
  - assert (Pc : P c = false).
    { destruct (P c) eqn:Pc; [rewrite (P_outside _ Pc) in Ec; discriminate | reflexivity]. }
    cbn [filter]. rewrite Pc.
    destruct (starts_in cls t); [exact IH|]. cbn [filter]. rewrite P_space. exact IH.
  - cbn [filter]. rewrite IH. reflexivity.
Qed.

End Kept.

Lemma dropwhile_split_all p s :
  exists sp, s = sp ++ dropwhile p s /\ forallb p sp = true.
Proof.
  induction s as [|c t [sp [IH Hsp]]]; [exists []; split; reflexivity|].
  cbn [dropwhile]. destruct (p c) eqn:Pc; [|exists []; split; reflexivity].
  exists (c :: sp). cbn [app forallb]. rewrite Pc, Hsp. split; [f_equal; exact IH | reflexivity].
Qed.

Lemma strip_trims s :
  exists a b, s = a ++ strip s ++ b
              /\ forallb isspace a = true /\ forallb isspace b = true.
Proof.
  unfold strip. destruct (dropwhile_split_all isspace s) as (a & Ea & Ha).
  set (u := dropwhile isspace s) in *.
  destruct (dropwhile_split_all isspace (rev u)) as (b & Eb & Hb).
  set (v := dropwhile isspace (rev u)) in *.
  apply (f_equal (@rev _)) in Eb. rewrite rev_involutive, rev_app_distr in Eb.
  exists a, (rev b). rewrite <- Eb. split; [exact Ea|]. split; [exact Ha|].
  rewrite forallb_rev. exact Hb.
Qed.

Lemma filter_strip P s :
  (forall c, P c = true -> isspace c = false) -> filter P (strip s) = filter P s.
Proof.
  intros HP. destruct (strip_trims s) as (a & b & E & Ha & Hb).
  rewrite E at 2. rewrite !filter_app.
  rewrite (filter_all_outside P isspace HP a Ha), (filter_all_outside P isspace HP b Hb).
  rewrite app_nil_r. reflexivity.
Qed.

Lemma length_strip s : (length (strip s) <= length s)%nat.
Proof.
  destruct (strip_trims s) as (a & b & E & _). rewrite E at 2.
  rewrite !length_app. lia.
Qed.

Lemma content_not_punct c : content c = true -> punct c = false.
Proof.
  unfold content. rewrite !andb_true_iff, !negb_true_iff. tauto.
Qed.

Lemma content_not_space c : content c = true -> isspace c = false.
Proof.
  unfold content. rewrite !andb_true_iff, !negb_true_iff. tauto.
Qed.

Lemma filter_translate x : filter content (translate PT x) = filter content x.
Proof.
  unfold translate. induction x as [|c t IH]; [reflexivity|]. cbn [map filter].
  rewrite IH. unfold translate_char.
  destruct (lookup PT c) as [v|] eqn:E.
  - assert (Hc : content c = false) by (unfold content; rewrite E; reflexivity).
    assert (Hv : content v = false).
    { unfold content. apply lookup_In in E. apply (in_map snd) in E. cbn [snd] in E.
      assert (K : existsb (N.eqb v) (map snd PT) = true).
      { apply existsb_exists. exists v. split; [exact E | apply N.eqb_refl]. }
      rewrite K. cbn [negb]. rewrite !andb_false_r. reflexivity. }
    rewrite Hc, Hv. reflexivity.
  - reflexivity.
Qed.

(** X9: on an input that does not contain the reserved word, the stage
    keeps every character it has no rule for (anything but table keys and
    values, marks of the collapsing class and white space), all of them and
    in their order: letters and digits are neither dropped, changed nor
    moved. *)
Theorem content_is_kept data :
  reserved_free (_extract_text data) = true ->
  filter content (text (PunctuationNormalizer.apply data))
  = filter content (_extract_text data).
Proof.
  intros H. unfold PunctuationNormalizer.apply. cbn [text].
  rewrite normalize_transparent by exact H. rewrite squeeze_eq.
  rewrite (filter_strip _ _ content_not_space).
  rewrite (filter_squeeze_ws content isspace content_not_space eq_refl).
  rewrite (filter_squash content punct content_not_punct).
  apply filter_translate.
Qed.

Lemma content_is_kept_witness :
  filter content (text (PunctuationNormalizer.apply
                          (RawText (py " ዋጋው  8.5%%% ነው፤፤ “እሺ”！！ "))))
  = filter content (_extract_text (RawText (py " ዋጋው  8.5%%% ነው፤፤ “እሺ”！！ "))).
Proof.
  apply (content_is_kept (RawText (py " ዋጋው  8.5%%% ነው፤፤ “እሺ”！！ "))).
  vm_compute. reflexivity.
Defined.

(** X10: on an input that does not contain the reserved word, the returned
    text is never longer than the input. *)
Theorem output_is_not_longer data :
  reserved_free (_extract_text data) = true ->
  (length (text (PunctuationNormalizer.apply data))
   <= length (_extract_text data))%nat.
Proof.
  intros H. unfold PunctuationNormalizer.apply. cbn [text].
  rewrite normalize_transparent by exact H. rewrite squeeze_eq.
  eapply Nat.le_trans; [apply length_strip|].
  eapply Nat.le_trans; [apply length_squeeze_ws|].
  eapply Nat.le_trans; [apply length_squash|].
  unfold translate. rewrite length_map. apply Nat.le_refl.
Qed.

Lemma output_is_not_longer_witness :
  (length (text (PunctuationNormalizer.apply (RawText (py "a 1.5 ,, b  "))))
   <= length (_extract_text (RawText (py "a 1.5 ,, b  "))))%nat.
Proof.
  apply (output_is_not_longer (RawText (py "a 1.5 ,, b  "))).
  vm_compute. reflexivity.
Defined.

(** ** The remapper *)

Section OnePass.
Import CharacterRemapper.

Lemma one_pass_cons2 rs c d u :
  one_pass rs (c :: d :: u)
  = match find (fires c d) rs with
    | Some r => target r :: one_pass rs u
    | None => c :: one_pass rs (d :: u)
    end.
Proof. reflexivity. Qed.

Lemma one_pass_nil s : one_pass [] s = s.
Proof.
  induction s as [|c t IH]; [reflexivity|].
  destruct t as [|d u]; [reflexivity|].
  rewrite one_pass_cons2. cbn [find]. rewrite IH. reflexivity.
Qed.

Lemma fires_ok c d r :
  rule_ok r = true -> fires c d r = (c =? base r) && is_trigger d.
Proof.
  intros Hr. apply rule_ok_spec in Hr. destruct Hr as (E & _).
  unfold fires. rewrite E. reflexivity.
Qed.

Lemma find_not_trigger rs c d :
  forallb rule_ok rs = true -> is_trigger d = false -> find (fires c d) rs = None.
Proof.
  intros Hrs Hd. induction rs as [|r rs IH]; [reflexivity|].
  cbn [forallb] in Hrs. apply andb_true_iff in Hrs. destruct Hrs as [Hr Hrs].
  cbn [find]. rewrite (fires_ok c d r Hr), Hd, andb_false_r. apply IH, Hrs.
Qed.

Lemma find_not_base rs c d :
  not_base_in rs c = true -> find (fires c d) rs = None.
Proof.
  intros Hc. induction rs as [|r rs IH]; [reflexivity|].
  unfold not_base_in in Hc. cbn [forallb] in Hc.
  apply andb_true_iff in Hc. destruct Hc as [Hr Hrs].
  apply negb_true_iff in Hr. cbn [find]. unfold fires at 1. rewrite Hr.
  cbn [andb]. apply IH, Hrs.
Qed.

Lemma one_pass_cons_lone rs c w :
  forallb rule_ok rs = true -> starts_in is_trigger w = false ->
  one_pass rs (c :: w) = c :: one_pass rs w.
Proof.
  intros Hrs Hw. destruct w as [|d w]; [reflexivity|].
  rewrite one_pass_cons2, (find_not_trigger rs c d Hrs Hw). reflexivity.
Qed.

Lemma one_pass_cons_other rs c w :
  not_base_in rs c = true -> one_pass rs (c :: w) = c :: one_pass rs w.
Proof.
  intros Hc. destruct w as [|d w]; [reflexivity|].
  rewrite one_pass_cons2, (find_not_base rs c d Hc). reflexivity.
Qed.

(** The pass of one rule followed by a scan with the later rules is a scan
    with the rule put in front. *)
Lemma one_pass_step r rs :
  rule_ok r = true -> forallb rule_ok rs = true ->
  not_base_in rs (target r) = true ->
  forall s, one_pass rs (contract s r) = one_pass (r :: rs) s.
Proof.
  intros Hr Hrs Ht s.
  remember (length s) as n eqn:Hn. revert s Hn.
  induction n as [n IH] using lt_wf_ind. intros s Hn.
  destruct s as [|c [|d u]]; [reflexivity | reflexivity |].
  assert (IHu : one_pass rs (contract u r) = one_pass (r :: rs) u).
  { apply (IH (length u)); [subst n; simpl; lia | reflexivity]. }
  assert (IHt : one_pass rs (contract (d :: u) r) = one_pass (r :: rs) (d :: u)).
  { apply (IH (length (d :: u))); [subst n; simpl; lia | reflexivity]. }
  rewrite contract_cons2, (one_pass_cons2 (r :: rs)). cbn [find].
  fold (fires c d r). rewrite (fires_ok c d r Hr).
  pose proof (rule_ok_spec r Hr) as (_ & Hb & _).
  destruct (is_trigger d) eqn:Td.
  - rewrite andb_true_r. destruct (c =? base r) eqn:Cb; cbv iota.
    + rewrite (one_pass_cons_other rs _ _ Ht), IHu. reflexivity.
    + assert (Db : (d =? base r) = false).
      { apply N.eqb_neq. intros ->. rewrite Hb in Td. discriminate. }
      assert (Q : contract (d :: u) r = d :: contract u r)
        by apply contract_cons_other, Db.
      rewrite Q in IHt |- *.
      rewrite one_pass_cons2, IHu, IHt. reflexivity.
  - rewrite andb_false_r, (find_not_trigger rs c d Hrs Td). cbv iota.
    rewrite one_pass_cons_lone; [rewrite IHt; reflexivity | exact Hrs |].
    apply starts_contract; [exact Hr | exact Td].
Qed.

Lemma passes_one_pass rs :
  forallb rule_ok rs = true ->
  (forall r, In r rs -> not_base_in rs (target r) = true) ->
  forall s, fold_left contract rs s = one_pass rs s.
Proof.
  induction rs as [|r rs IH]; intros Hok Ht s; [symmetry; apply one_pass_nil|].
  cbn [forallb] in Hok. apply andb_true_iff in Hok. destruct Hok as [Hr Hrs].
  assert (Tl : forall r', In r' (r :: rs) -> not_base_in rs (target r') = true).
  { intros r' Hr'. specialize (Ht r' Hr'). unfold not_base_in in Ht.
    cbn [forallb] in Ht. apply andb_true_iff in Ht. apply Ht. }
  cbn [fold_left]. rewrite IH; [| exact Hrs | intros r' Hr'; apply Tl; now right].
  apply one_pass_step; [exact Hr | exact Hrs | apply Tl; now left].
Qed.

Lemma fires_base c d r : fires c d r = true -> base r = c.
Proof.
  unfold fires. intros H. apply andb_true_iff in H. destruct H as [H _].
  apply N.eqb_eq in H. symmetry. exact H.
Qed.

Lemma find_unique c d rs r :
  NoDup (map base rs) -> In r rs -> fires c d r = true ->
  find (fires c d) rs = Some r.
Proof.
  intros Hnd Hin Hf. induction rs as [|x rs IH]; [destruct Hin|].
  cbn [map] in Hnd. inversion Hnd as [|? ? Hx Hnd']; subst.
  cbn [find]. destruct Hin as [->|Hin].
  - rewrite Hf. reflexivity.
  - destruct (fires c d x) eqn:Fx; [|apply IH; assumption].
    exfalso. apply Hx. apply fires_base in Fx. apply fires_base in Hf.
    rewrite Fx, <- Hf. apply in_map, Hin.
Qed.

Lemma find_perm c d rs rs' :
  NoDup (map base rs) -> Permutation rs rs' ->
  find (fires c d) rs = find (fires c d) rs'.
Proof.
  intros Hnd Hp.
  assert (Hnd' : NoDup (map base rs')).
  { apply (Permutation_NoDup (Permutation_map base Hp) Hnd). }
  destruct (find (fires c d) rs) as [r|] eqn:E.
  - apply find_some in E. destruct E as [Hin Hf]. symmetry.
    apply find_unique; [exact Hnd' | apply (Permutation_in _ Hp Hin) | exact Hf].
  - destruct (find (fires c d) rs') as [r'|] eqn:E'; [|reflexivity].
    apply find_some in E'. destruct E' as [Hin Hf].
    apply (Permutation_in _ (Permutation_sym Hp)) in Hin.
    rewrite (find_none _ _ E _ Hin) in Hf. discriminate.
Qed.

Lemma one_pass_perm rs rs' :
  NoDup (map base rs) -> Permutation rs rs' ->
  forall s, one_pass rs s = one_pass rs' s.
Proof.
  intros Hnd Hp s.
  remember (length s) as n eqn:Hn. revert s Hn.
  induction n as [n IH] using lt_wf_ind. intros s Hn.
  destruct s as [|c [|d u]]; [reflexivity | reflexivity |].
  rewrite !one_pass_cons2, (find_perm c d rs rs' Hnd Hp).
  destruct (find (fires c d) rs'); f_equal.
  - apply (IH (length u)); [subst n; simpl; lia | reflexivity].
  - apply (IH (length (d :: u))); [subst n; simpl; lia | reflexivity].
Qed.

End OnePass.

(** X12: the twenty substitutions of the remapper, run one after the other
    over the whole text, give the same text as one scan from the left with
    all twenty rules at once: no substitution makes or breaks a pair for a
    later one. *)
Theorem ligatures_is_one_pass s :
  CharacterRemapper.ligatures s = one_pass CharacterRemapper.LIGATURES s.
Proof.
  unfold CharacterRemapper.ligatures.
  apply passes_one_pass; [exact LIGATURES_ok | exact targets_not_bases].
Qed.

(** X13: the order of the twenty substitutions does not matter: run in any
    other order they give the same text. *)
Theorem ligature_order_is_irrelevant rs s :
  Permutation rs CharacterRemapper.LIGATURES ->
  fold_left CharacterRemapper.contract rs s = CharacterRemapper.ligatures s.
Proof.
  intros Hp. unfold CharacterRemapper.ligatures.
  rewrite (passes_one_pass CharacterRemapper.LIGATURES LIGATURES_ok targets_not_bases).
  rewrite passes_one_pass.
  - symmetry. apply one_pass_perm; [exact LIGATURES_distinct | apply Permutation_sym, Hp].
  - apply forallb_forall. intros r Hr.
    apply (proj1 (forallb_forall _ _) LIGATURES_ok), (Permutation_in _ Hp Hr).
  - intros r Hr. unfold not_base_in. apply forallb_forall. intros r' Hr'.
    apply (proj1 (forallb_forall _ _)
                 (targets_not_bases r (Permutation_in _ Hp Hr))).
    apply (Permutation_in _ Hp Hr').
Qed.

Lemma ligature_order_is_irrelevant_witness :
  fold_left CharacterRemapper.contract (rev CharacterRemapper.LIGATURES)
            (py "ሉዋ ሁአ ቱዋል ደዋ")
  = CharacterRemapper.ligatures (py "ሉዋ ሁአ ቱዋል ደዋ").
Proof.
  apply (ligature_order_is_irrelevant (rev CharacterRemapper.LIGATURES)).
  apply Permutation_sym, Permutation_rev.
Defined.

Section Lengths.
Import CharacterRemapper.

Lemma length_contract r s : (length (contract s r) <= length s)%nat.
Proof.
  remember (length s) as n eqn:Hn. revert s Hn.
  induction n as [n IH] using lt_wf_ind. intros s Hn.
  destruct s as [|c [|d u]]; [subst n; apply Nat.le_refl | subst n; apply Nat.le_refl |].
  rewrite contract_cons2.
  pose proof (IH (length u) ltac:(subst n; simpl; lia) u eq_refl) as Hu.
  pose proof (IH (length (d :: u)) ltac:(subst n; simpl; lia) (d :: u) eq_refl) as Ht.
  destruct ((c =? base r) && existsb (N.eqb d) (triggers r));
    subst n; cbn [length] in *; lia.
Qed.

Lemma contract_same_length r s :
  length (contract s r) = length s -> contract s r = s.
Proof.
  remember (length s) as n eqn:Hn. revert s Hn.
  induction n as [n IH] using lt_wf_ind. intros s Hn.
  destruct s as [|c [|d u]]; [reflexivity | reflexivity |].
  rewrite contract_cons2.
  destruct ((c =? base r) && existsb (N.eqb d) (triggers r)).
  - pose proof (length_contract r u). cbn [length] in *. intros E. exfalso. lia.
  - cbn [length] in *. intros E. f_equal.
    apply (IH (length (d :: u)) ltac:(subst n; simpl; lia) (d :: u) eq_refl).
    cbn [length]. lia.
Qed.

Lemma length_passes rs : forall s,
  (length (fold_left contract rs s) <= length s)%nat.
Proof.
  induction rs as [|r rs IH]; intros s; [apply Nat.le_refl|].
  cbn [fold_left]. eapply Nat.le_trans; [apply IH | apply length_contract].
Qed.

Lemma passes_same_length rs : forall s,
  length (fold_left contract rs s) = length s -> fold_left contract rs s = s.
Proof.
  induction rs as [|r rs IH]; intros s E; [reflexivity|].
  cbn [fold_left] in *.
  pose proof (length_passes rs (contract s r)) as H1.
  pose proof (length_contract r s) as H2.
  assert (Er : contract s r = s) by (apply contract_same_length; lia).
  rewrite Er in *. apply IH, E.
Qed.

Lemma length_remap x : (length (remap x) <= length x)%nat.
Proof.
  unfold remap, ligatures. eapply Nat.le_trans; [apply length_passes|].
  unfold translate. rewrite length_map. apply Nat.le_refl.
Qed.

Lemma map_fixed (f : char -> char) (s : str) :
  map f s = s <-> forallb (fun c => f c =? c) s = true.
Proof.
  induction s as [|c t IH]; cbn [map forallb]; [tauto|].
  rewrite andb_true_iff, N.eqb_eq, <- IH. split.
  - intros E. inversion E as [[E1 E2]]. rewrite E1, E2. tauto.
  - intros [-> ->]. reflexivity.
Qed.

Lemma remap_fixed_iff x : remap x = x <-> settled x = true.
Proof.
  unfold settled. rewrite andb_true_iff, <- map_fixed. split.
  - intros E.
    assert (P : forall r, In r LIGATURES -> pair_free r x = true).
    { intros r Hr. rewrite <- E. unfold remap. apply ligatures_pair_free, Hr. }
    unfold remap, ligatures in E.
    assert (L : fold_left contract LIGATURES (translate REMAP x) = translate REMAP x).
    { apply passes_same_length. rewrite E. unfold translate.
      rewrite length_map. reflexivity. }
    rewrite L in E. unfold translate in E.
    split; [exact E|]. apply forallb_forall. exact P.
  - intros [T P]. unfold remap, ligatures, translate. rewrite T.
    apply passes_fixed. intros r Hr. apply (proj1 (forallb_forall _ _) P r Hr).
Qed.

Lemma REMAP_no_identity c v : lookup REMAP c = Some v -> c <> v.
Proof.
  intros H. apply lookup_In in H. apply N.eqb_neq, negb_true_iff.
  apply (proj1 (forallb_forall (fun kv => negb (fst kv =? snd kv)) REMAP)
               ltac:(vm_compute; reflexivity) (c, v) H).
Qed.

End Lengths.

(** X14: for every input, no pattern of the twenty substitutions matches in
    the returned text: no base glyph of a rule is followed by one of its
    triggers, although the substitutions are run one after the other. *)
Theorem remapper_output_is_contracted data :
  forallb (fun r => pair_free r (text (CharacterRemapper.apply data)))
          CharacterRemapper.LIGATURES = true.
Proof.
  apply forallb_forall. intros r Hr. unfold CharacterRemapper.apply. cbn [text].
  unfold CharacterRemapper.remap. apply ligatures_pair_free, Hr.
Qed.

(** X15: for every input, the only key of the table REMAP that can occur in
    the returned text is U+128B (which a substitution writes after the table
    pass): every other character of the output is not a key. *)
Theorem remapper_output_has_no_other_key data :
  forallb (fun c => (c =? glyph_hwa)
                    || match lookup CharacterRemapper.REMAP c with
                       | None => true
                       | Some _ => false
                       end)
          (text (CharacterRemapper.apply data)) = true.
Proof.
  apply forallb_forall. intros c Hc. unfold CharacterRemapper.apply in Hc.
  cbn [text] in Hc. destruct (c =? glyph_hwa) eqn:E; [reflexivity|].
  apply N.eqb_neq in E. pose proof (remap_chars_fixed _ c Hc E) as F.
  unfold translate_char in F.
  destruct (lookup CharacterRemapper.REMAP c) as [v|] eqn:L; [|reflexivity].
  exfalso. apply (REMAP_no_identity _ _ L). symmetry. exact F.
Qed.

(** X16: applying the remapper again: the second application only does the
    table pass (no substitution has anything left to do), and from the
    second application on the text does not change any more. *)
Theorem remapper_settles_after_two_passes x :
  CharacterRemapper.remap (CharacterRemapper.remap x)
  = translate CharacterRemapper.REMAP (CharacterRemapper.remap x)
  /\ CharacterRemapper.remap (CharacterRemapper.remap (CharacterRemapper.remap x))
     = CharacterRemapper.remap (CharacterRemapper.remap x).
Proof.
  split; [apply remap_second_pass | apply remap_third_pass].
Qed.

(** X17: the flag of the remapper is false exactly on the texts it has
    nothing to do on: no character is changed by the table REMAP and no
    base glyph is followed by one of its triggers. *)
Theorem remapper_flag_is_false_iff_settled data :
  flag (CharacterRemapper.apply data) = negb (settled (_extract_text data)).
Proof.
  unfold CharacterRemapper.apply. cbn [flag]. f_equal.
  destruct (settled (_extract_text data)) eqn:S.
  - apply str_eqb_eq, remap_fixed_iff, S.
  - destruct (str_eqb _ _) eqn:E; [|reflexivity].
    apply str_eqb_eq, remap_fixed_iff in E. rewrite E in S. discriminate.
Qed.

(** X18: for every input, the text returned by the remapper is never longer
    than the input. *)
Theorem remapper_output_is_not_longer data :
  (length (text (CharacterRemapper.apply data)) <= length (_extract_text data))%nat.
Proof.
  unfold CharacterRemapper.apply. cbn [text]. apply length_remap.
Qed.

(** X19: remapping a text in two parts: when the second part, after the
    table pass, does not start with one of the two triggers, remapping the
    whole text is remapping the parts. *)
Theorem remap_of_two_parts a b :
  starts_in is_trigger (translate CharacterRemapper.REMAP b) = false ->
  CharacterRemapper.remap (a ++ b)
  = CharacterRemapper.remap a ++ CharacterRemapper.remap b.
Proof.
  intros H. unfold CharacterRemapper.remap, CharacterRemapper.ligatures.
  rewrite translate_app. apply passes_app; [exact LIGATURES_ok | exact H].
Qed.

Lemma remap_of_two_parts_witness :
  CharacterRemapper.remap (py "ሠላም ቱዋል " ++ py "ጸሐይ ሁአ")
  = CharacterRemapper.remap (py "ሠላም ቱዋል ") ++ CharacterRemapper.remap (py "ጸሐይ ሁአ").
Proof.
  apply (remap_of_two_parts (py "ሠላም ቱዋል ") (py "ጸሐይ ሁአ")).
  vm_compute. reflexivity.
Defined.

(** ** The Unicode stage *)

Section UnicodeStage.
Variable nf : UnicodeNormalizer.normal_form -> str -> str.
Variable category : char -> UnicodeNormalizer.general_category.

Lemma filter_fixed (p : char -> bool) (s : str) :
  forallb p s = true -> filter p s = s.
Proof.
  induction s as [|c t IH]; [reflexivity|]. cbn [forallb filter]. intros H.
  apply andb_true_iff in H. destruct H as [Hc Ht]. rewrite Hc, (IH Ht). reflexivity.
Qed.

Lemma apply_on_empty self data :
  _extract_text data = [] ->
  UnicodeNormalizer.apply nf category self data
  = inr {| text := []; flag := false |}.
Proof.
  intros E. unfold UnicodeNormalizer.apply, UnicodeNormalizer.normalize.
  rewrite E. destruct (UnicodeNormalizer.strip_control self); reflexivity.
Qed.

Lemma apply_supported self data f :
  UnicodeNormalizer.form_of_name (UnicodeNormalizer.form self) = Some f ->
  exists out, UnicodeNormalizer.apply nf category self data = inr out.
Proof.
  intros Hf. unfold UnicodeNormalizer.apply, UnicodeNormalizer.normalize.
  destruct (_extract_text data) as [|c t]; [eexists; reflexivity|].
  rewrite Hf. eexists. reflexivity.
Qed.

End UnicodeStage.

(** X20: on the empty text the Unicode stage never raises, whatever the
    form name stored in the object, also an unsupported one: it returns the
    empty text with the flag false. *)
Theorem empty_text_never_raises nf category self data :
  _extract_text data = [] ->
  UnicodeNormalizer.apply nf category self data
  = inr {| text := []; flag := false |}.
Proof. apply apply_on_empty. Qed.

Lemma empty_text_never_raises_witness :
  UnicodeNormalizer.apply Ascii7.nf Ascii7.category
    {| UnicodeNormalizer.form := "bogus"; UnicodeNormalizer.strip_control := true |}
    (WithText [])
  = inr {| text := []; flag := false |}.
Proof.
  apply (empty_text_never_raises Ascii7.nf Ascii7.category
           {| UnicodeNormalizer.form := "bogus";
              UnicodeNormalizer.strip_control := true |} (WithText [])).
  reflexivity.
Defined.

(** X21: the Unicode stage raises exactly when the stored form name is not
    one of NFC, NFKC, NFD, NFKD and the text is not empty; in every other
    case it returns a result. *)
Theorem apply_raises_exactly_when nf category self data :
  (exists e, UnicodeNormalizer.apply nf category self data = inl e)
  <-> (UnicodeNormalizer.form_of_name (UnicodeNormalizer.form self) = None
       /\ _extract_text data <> []).
Proof.
  split.
  - intros [e He].
    destruct (UnicodeNormalizer.form_of_name (UnicodeNormalizer.form self))
      as [f|] eqn:Hf.
    + destruct (apply_supported nf category self data f Hf) as [out Ho].
      rewrite Ho in He. discriminate.
    + split; [reflexivity|]. intros E.
      rewrite (apply_on_empty nf category self data E) in He. discriminate.
  - intros [Hf Hd]. exists (ValueError "invalid normalization form").
    unfold UnicodeNormalizer.apply, UnicodeNormalizer.normalize.
    destruct (_extract_text data) as [|c t]; [congruence|].
    rewrite Hf. reflexivity.
Qed.

(** X22: a text that is already in the stored normalization form and has no
    character of a category starting with C is returned as it is, with the
    flag false, with or without [strip_control]. *)
Theorem normalized_text_is_unchanged nf category self data f :
  UnicodeNormalizer.form_of_name (UnicodeNormalizer.form self) = Some f ->
  nf f (_extract_text data) = _extract_text data ->
  forallb (UnicodeNormalizer.not_control category) (_extract_text data) = true ->
  UnicodeNormalizer.apply nf category self data
  = inr {| text := _extract_text data; flag := false |}.
Proof.
  intros Hf Hn Hc. unfold UnicodeNormalizer.apply, UnicodeNormalizer.normalize.
  destruct (_extract_text data) as [|c t] eqn:E.
  - destruct (UnicodeNormalizer.strip_control self); reflexivity.
  - rewrite Hf, Hn.
    destruct (UnicodeNormalizer.strip_control self).
    + rewrite (filter_fixed _ _ Hc), str_eqb_refl. reflexivity.
    + rewrite str_eqb_refl. reflexivity.
Qed.

Lemma normalized_text_is_unchanged_witness :
  UnicodeNormalizer.apply Ascii7.nf Ascii7.category
    {| UnicodeNormalizer.form := "NFKC"; UnicodeNormalizer.strip_control := true |}
    (RawText (py "Addis Ababa 2024"))
  = inr {| text := _extract_text (RawText (py "Addis Ababa 2024")); flag := false |}.
Proof.
  apply (normalized_text_is_unchanged Ascii7.nf Ascii7.category
           {| UnicodeNormalizer.form := "NFKC";
              UnicodeNormalizer.strip_control := true |}
           (RawText (py "Addis Ababa 2024")) UnicodeNormalizer.NFKC).
  - reflexivity.
  - reflexivity.
  - vm_compute. reflexivity.
Defined.
